(** * fix_csv.py: rewriting the "Variant Fulfillment Service" column

    A shallow embedding of [johnson-health-theme/fix_csv.py] and the
    properties of its one pass over a product catalogue export.

    The script is a thin layer over Python's [csv] module.  The embedding
    has four parts:

    - [Csv]: the reading side of the library as the script configures it
      ([csv.reader(infile)], default "excel" dialect), transcribed from
      CPython's [Modules/_csv.c], together with the line iteration of a text
      file opened with universal newlines;
    - the writing side, [Csv.writerow], from the same file;
    - [Py]: a small state-and-exception monad for what the script does to its
      environment (the destination file, the console, raised exceptions);
    - the script itself, statement by statement.

    A row is a list of text fields, as the reader yields it and the writer
    receives it.  The destination file is modelled by the sequence of rows
    handed to [writer.writerow] since it was opened; its text is
    [Csv.writerows] of that sequence. *)

From stdpp Require Import base list strings pretty.
From Stdlib Require Import Ascii NArith Lia.

(** A row as [csv.reader] yields it: a Python list of str. *)
Abbreviation row := (list string).

(** ** The [csv] reader *)

Module Csv.

(** Exceptions of class [csv.Error] that the reader can raise in the default
    dialect (CPython 3.11 and later; earlier versions also refuse a NUL
    character in a line). *)
Inductive Error :=
| FieldLargerThanLimit     (* "field larger than field limit (131072)" *)
| NewlineInUnquotedField.  (* "new-line character seen in unquoted field ..." *)

(** [ParserState] of _csv.c.  The default dialect has no escapechar, so the
    three escape states (ESCAPED_CHAR, AFTER_ESCAPED_CRNL,
    ESCAPE_IN_QUOTED_FIELD) are never entered and are left out. *)
Inductive ParserState :=
| START_RECORD
| START_FIELD
| IN_FIELD
| IN_QUOTED_FIELD
| QUOTE_IN_QUOTED_FIELD
| EAT_CRNL.

#[export] Instance ParserState_eq_dec : EqDecision ParserState.
Proof. solve_decision. Defined.

(** The part of [ReaderObj] that parsing touches: the fields of the record
    parsed so far, the characters of the current field ([field_len] is the
    length of [field]) and the automaton state. *)
Record ReaderObj := mkReader {
  fields : list string;
  field : string;
  state : ParserState
}.

Definition field_len (self : ReaderObj) : N := N.of_nat (String.length (field self)).

(** [csv.field_size_limit()] as the module initialises it: 128 * 1024. *)
Definition field_limit : N := 131072.

(** The excel dialect: delimiter, quotechar; doublequote is on,
    skipinitialspace and strict are off, quoting is QUOTE_MINIMAL. *)
Definition delimiter : ascii := ","%char.
Definition quotechar : ascii := "034"%char.
Definition LF : ascii := "010"%char.
Definition CR : ascii := "013"%char.

(** The character handed to [parse_process_char]: a character of the line,
    or the EOL marker that ends every line. *)
Abbreviation EOL := None.

Definition is_newline (c : ascii) : bool :=
  bool_decide (c = LF) || bool_decide (c = CR).

(** [parse_reset] leaves the parser in this state, whatever it held. *)
Definition parse_reset : ReaderObj :=
  {| fields := []; field := ""; state := START_RECORD |}.

(** [parse_save_field]: the current field is appended to the record and the
    field buffer emptied. *)
Definition parse_save_field (self : ReaderObj) : ReaderObj :=
  {| fields := fields self ++ [field self]; field := ""; state := state self |}.

(** [parse_add_char]: refuses to grow a field that has reached the limit. *)
Definition parse_add_char (self : ReaderObj) (c : ascii) : Error + ReaderObj :=
  if (field_limit <=? field_len self)%N then inl FieldLargerThanLimit
  else inr {| fields := fields self;
              field := field self +:+ String c "";
              state := state self |}.

Definition set_state (st : ParserState) (self : ReaderObj) : ReaderObj :=
  {| fields := fields self; field := field self; state := st |}.

(** [if (parse_add_char(self, c) < 0) return -1; self->state = st;] *)
Definition add_char_then (st : ParserState) (self : ReaderObj) (c : ascii)
  : Error + ReaderObj :=
  match parse_add_char self c with
  | inl e => inl e
  | inr self' => inr (set_state st self')
  end.

(** START_FIELD, also reached by fall-through from START_RECORD. *)
Definition start_field (self : ReaderObj) (c : option ascii) : Error + ReaderObj :=
  match c with
  | EOL => inr (set_state START_RECORD (parse_save_field self))
  | Some ch =>
      if is_newline ch then inr (set_state EAT_CRNL (parse_save_field self))
      else if bool_decide (ch = quotechar) then inr (set_state IN_QUOTED_FIELD self)
      else if bool_decide (ch = delimiter) then inr (parse_save_field self)
      else add_char_then IN_FIELD self ch
  end.

(** [parse_process_char], one case of the switch per state. *)
Definition parse_process_char (self : ReaderObj) (c : option ascii) : Error + ReaderObj :=
  match state self with
  | START_RECORD =>
      match c with
      | EOL => inr self
      | Some ch =>
          if is_newline ch then inr (set_state EAT_CRNL self)
          else start_field (set_state START_FIELD self) c
      end
  | START_FIELD => start_field self c
  | IN_FIELD =>
      match c with
      | EOL => inr (set_state START_RECORD (parse_save_field self))
      | Some ch =>
          if is_newline ch then inr (set_state EAT_CRNL (parse_save_field self))
          else if bool_decide (ch = delimiter)
               then inr (set_state START_FIELD (parse_save_field self))
          else parse_add_char self ch
      end
  | IN_QUOTED_FIELD =>
      match c with
      | EOL => inr self
      | Some ch =>
          if bool_decide (ch = quotechar) then inr (set_state QUOTE_IN_QUOTED_FIELD self)
          else parse_add_char self ch
      end
  | QUOTE_IN_QUOTED_FIELD =>
      match c with
      | EOL => inr (set_state START_RECORD (parse_save_field self))
      | Some ch =>
          if bool_decide (ch = quotechar)
          then add_char_then IN_QUOTED_FIELD self ch
          else if bool_decide (ch = delimiter)
               then inr (set_state START_FIELD (parse_save_field self))
          else if is_newline ch then inr (set_state EAT_CRNL (parse_save_field self))
          else add_char_then IN_FIELD self ch
      end
  | EAT_CRNL =>
      match c with
      | EOL => inr (set_state START_RECORD self)
      | Some ch => if is_newline ch then inr self else inl NewlineInUnquotedField
      end
  end.

(** The inner [while (linelen--)] loop of [Reader_iternext]: every character
    of one line. *)
Fixpoint process_line (self : ReaderObj) (line : string) : Error + ReaderObj :=
  match line with
  | "" => inr self
  | String c rest =>
      match parse_process_char self (Some c) with
      | inl e => inl e
      | inr self' => process_line self' rest
      end
  end.

(** How the iteration over a reader comes to its end. *)
Inductive Ending :=
| Exhausted               (* StopIteration: the for loop ends *)
| Raises (e : Error).     (* the next call raises *)

(** What iterating a reader gives: the rows of the successive
    [Reader_iternext] calls that return, and the way the call after the last
    of them ends. *)
Record Stream := mkStream {
  rows : list row;
  ending : Ending
}.

Definition yield (r : row) (s : Stream) : Stream :=
  {| rows := r :: rows s; ending := ending s |}.

(** [Reader_iternext], iterated.  [self] is the parser in the middle of the
    current call; a call starts from [parse_reset].  One line is taken from
    the input at a time; the record is returned when the automaton is back in
    START_RECORD after the line's EOL.  At the end of the input a pending
    field, or an open quoted field, is saved and the record returned (the
    dialect is not strict). *)
Fixpoint iternext (self : ReaderObj) (lines : list string) : Stream :=
  match lines with
  | [] =>
      if bool_decide (field_len self ≠ 0%N) || bool_decide (state self = IN_QUOTED_FIELD)
      then {| rows := [fields (parse_save_field self)]; ending := Exhausted |}
      else {| rows := []; ending := Exhausted |}
  | lineobj :: input_iter =>
      match process_line self lineobj with
      | inl e => {| rows := []; ending := Raises e |}
      | inr self1 =>
          match parse_process_char self1 EOL with
          | inl e => {| rows := []; ending := Raises e |}
          | inr self2 =>
              if bool_decide (state self2 = START_RECORD)
              then yield (fields self2) (iternext parse_reset input_iter)
              else iternext self2 input_iter
          end
      end
  end.

(** [csv.reader(lines)]: the stream of records of an iterable of lines. *)
Definition reader (lines : list string) : Stream := iternext parse_reset lines.

(** *** Writing *)

(** [join_append_data]: the characters one field contributes to the record,
    and whether the field has to be quoted.  A delimiter, a quote character
    or a character of the line terminator asks for quotes; a quote character
    is doubled. *)
Fixpoint join_append_data (field_data : string) (quoted : bool) : string * bool :=
  match field_data with
  | "" => ("", quoted)
  | String c rest =>
      let special :=
        bool_decide (c = delimiter) || bool_decide (c = quotechar) ||
        bool_decide (c = CR) || bool_decide (c = LF) in
      let '(copied, quoted') := join_append_data rest (quoted || special) in
      (if bool_decide (c = quotechar) then String quotechar (String c copied)
       else String c copied,
       quoted')
  end.

(** [join_append]: a separator unless the field is the first, then the field,
    between quotes if the counting pass asked for them. *)
Definition join_append (num_fields : nat) (field_data : string) (quoted : bool) : string :=
  let '(copied, quoted) := join_append_data field_data quoted in
  (if bool_decide (0 < num_fields) then String delimiter "" else "") +:+
  (if quoted then String quotechar "" +:+ copied +:+ String quotechar "" else copied).

(** The loop of [csv_writerow] over the fields; [num_fields] counts the
    fields already joined. *)
Fixpoint join_fields (num_fields : nat) (seq : row) : string :=
  match seq with
  | [] => ""
  | field_data :: rest =>
      join_append num_fields field_data false +:+ join_fields (S num_fields) rest
  end.

(** The record buffer at the end of the loop of [csv_writerow].  A record
    that consists of one empty field is written as a pair of quotes. *)
Definition join_record (seq : row) : string :=
  let rec := join_fields 0 seq in
  if bool_decide (0 < length seq) && bool_decide (String.length rec = 0)
  then join_append 0 "" true
  else rec.

(** The line terminator of the dialect. *)
Definition lineterminator : string := String CR (String LF "").

(** [writer.writerow(seq)]: the text written for one row. *)
Definition writerow (seq : row) : string :=
  join_record seq +:+ lineterminator.

(** The content of a file opened with [newline=''] after one [writerow] per
    row. *)
Fixpoint writerows (rs : list row) : string :=
  match rs with
  | [] => ""
  | r :: rs' => writerow r +:+ writerows rs'
  end.

End Csv.

(** ** Text files *)

Module TextFile.

(** Reading with [newline=None] (the default of [open(..., 'r')]): the
    line endings CR LF and CR are both translated to LF before the text
    reaches the caller. *)
Fixpoint universal_newlines (s : string) : string :=
  match s with
  | "" => ""
  | String c rest =>
      if bool_decide (c = Csv.CR) then
        match rest with
        | String c' rest' =>
            if bool_decide (c' = Csv.LF) then String Csv.LF (universal_newlines rest')
            else String Csv.LF (universal_newlines rest)
        | "" => String Csv.LF ""
        end
      else String c (universal_newlines rest)
  end.

(** Iterating a text file: the lines, each with its terminating LF; the
    last line is the only one that may lack it.  [cur] holds the characters
    of the line being read. *)
Fixpoint readlines (cur : string) (s : string) : list string :=
  match s with
  | "" => if bool_decide (cur = "") then [] else [cur]
  | String c rest =>
      if bool_decide (c = Csv.LF) then (cur +:+ String c "") :: readlines "" rest
      else readlines (cur +:+ String c "") rest
  end.

(** [iter(open(path, 'r', encoding='utf-8'))] on a file whose decoded
    content is [text]. *)
Definition lines (text : string) : list string :=
  readlines "" (universal_newlines text).

End TextFile.

(** ** The reader over the text of a file

    [Csv.reader (TextFile.lines text)] cuts the text into lines and then runs
    the automaton over each line.  The same stream can be computed in one
    pass over the characters, running the end-of-line step after every LF;
    [Feed.feed_lines] states that the two agree.  The proofs about whole
    files go through this view. *)

Module Feed.

Import Csv.

Definition raises (e : Error) : Stream := {| rows := []; ending := Raises e |}.

(** The end of a line: the EOL step, then either the record is complete and
    a new one starts, or the next line continues the record. *)
Definition end_of_line (st : Error + ReaderObj) (k : ReaderObj → Stream) : Stream :=
  match st with
  | inl e => raises e
  | inr self1 =>
      match parse_process_char self1 EOL with
      | inl e => raises e
      | inr self2 =>
          if bool_decide (state self2 = START_RECORD)
          then yield (fields self2) (k parse_reset)
          else k self2
      end
  end.

(** [st] is the parser after the characters of the current line read so far
    (or the error they raised), [pending] tells whether there are any. *)
Fixpoint feed (st : Error + ReaderObj) (pending : bool) (s : string) : Stream :=
  match s with
  | "" =>
      if pending then end_of_line st (λ self, iternext self [])
      else match st with
           | inl e => raises e
           | inr self => iternext self []
           end
  | String c rest =>
      let st' := match st with
                 | inl e => inl e
                 | inr self => parse_process_char self (Some c)
                 end in
      if bool_decide (c = LF) then end_of_line st' (λ self, feed (inr self) false rest)
      else feed st' true rest
  end.

(** Every character of [s] satisfies [P]. *)
Fixpoint all_chars (P : ascii → bool) (s : string) : bool :=
  match s with
  | "" => true
  | String c rest => P c && all_chars P rest
  end.

Definition not_CR (c : ascii) : bool := negb (bool_decide (c = CR)).

Definition not_LF (c : ascii) : bool := negb (bool_decide (c = LF)).

(** The writer's view of a character and of a field: the characters that ask
    for quotes, the fields that get them, and a field's characters with every
    quote character doubled. *)
Definition special (c : ascii) : bool :=
  bool_decide (c = delimiter) || bool_decide (c = quotechar) ||
  bool_decide (c = CR) || bool_decide (c = LF).

Fixpoint needs_quotes (f : string) : bool :=
  match f with
  | "" => false
  | String c rest => special c || needs_quotes rest
  end.

Fixpoint doubled (f : string) : string :=
  match f with
  | "" => ""
  | String c rest =>
      if bool_decide (c = quotechar) then String quotechar (String c (doubled rest))
      else String c (doubled rest)
  end.

(** A field that the reader can have produced from a text file: no CR (the
    file object translated them) and no longer than the field limit. *)
Definition within_limit (f : string) : Prop :=
  (N.of_nat (String.length f) ≤ field_limit)%N.

Definition field_ok (f : string) : Prop :=
  all_chars not_CR f = true ∧ within_limit f.

(** The states in which a field may start. *)
Definition starting (st : ParserState) : Prop :=
  st = START_FIELD ∨ st = START_RECORD.

(** The invariant of the parser while it reads such a file. *)
Definition reader_ok (self : ReaderObj) : Prop :=
  field_ok (field self) ∧ Forall field_ok (fields self).

End Feed.

(** ** The script's environment *)

Module Py.

(** The exceptions that can leave the script. *)
Inductive exn :=
| FileNotFoundError            (* open(input_file, 'r') *)
| StopIteration                (* next(reader) on a reader with no record *)
| ValueError                   (* header.index(...) *)
| csv_Error (e : Csv.Error).   (* raised by the reader while iterating *)

(** What the script reads and changes: the decoded content of the input file
    ([None] when it does not exist), the rows written to the output file
    since it was last opened for writing ([None] while this run has not opened
    it) and the lines printed. *)
Record world := mkWorld {
  source : option string;
  destination : option (list row);
  stdout : list string
}.

(** A statement: runs in a world, returns or raises, leaves a world. *)
Definition M (A : Type) : Type := world → (exn + A) * world.

Definition ret {A} (a : A) : M A := λ w, (inr a, w).

Definition bind {A B} (f : A → M B) (m : M A) : M B :=
  λ w, match m w with
       | (inl e, w') => (inl e, w')
       | (inr a, w') => f a w'
       end.

Definition raise {A} (e : exn) : M A := λ w, (inl e, w).

#[export] Instance M_ret : MRet M := @ret.
#[export] Instance M_bind : MBind M := @bind.

(** [open(input_file, 'r', encoding='utf-8')].  The content is taken as
    already decoded: an input that is not valid UTF-8 (UnicodeDecodeError) is
    outside the model. *)
Definition open_r : M string :=
  λ w, match source w with
       | Some text => (inr text, w)
       | None => (inl FileNotFoundError, w)
       end.

(** [open(output_file, 'w', encoding='utf-8', newline='')]: the file is
    created, or truncated if it exists.  A destination that cannot be opened
    for writing is outside the model. *)
Definition open_w : M unit :=
  λ w, (inr (), {| source := source w; destination := Some []; stdout := stdout w |}).

(** [writer.writerow(row)]: one more record at the end of the output. *)
Definition writerow (r : row) : M unit :=
  λ w, (inr (), {| source := source w;
                   destination := Some (default [] (destination w) ++ [r]);
                   stdout := stdout w |}).

(** [print(line)].  A console that cannot encode the line
    (UnicodeEncodeError) is outside the model. *)
Definition print (line : string) : M unit :=
  λ w, (inr (), {| source := source w;
                   destination := destination w;
                   stdout := stdout w ++ [line] |}).

(** [next(reader)]: the first record and the reader advanced past it. *)
Definition next (reader : Csv.Stream) : M (row * Csv.Stream) :=
  match Csv.rows reader with
  | r :: rs => mret (r, {| Csv.rows := rs; Csv.ending := Csv.ending reader |})
  | [] =>
      match Csv.ending reader with
      | Csv.Exhausted => raise StopIteration
      | Csv.Raises e => raise (csv_Error e)
      end
  end.

(** [for row in reader: body]. *)
Fixpoint for_rows (rs : list row) (fin : Csv.Ending) (body : row → M unit) : M unit :=
  match rs with
  | r :: rs' => body r ;; for_rows rs' fin body
  | [] =>
      match fin with
      | Csv.Exhausted => mret ()
      | Csv.Raises e => raise (csv_Error e)
      end
  end.

Definition for_in (reader : Csv.Stream) (body : row → M unit) : M unit :=
  for_rows (Csv.rows reader) (Csv.ending reader) body.

(** [l.index(x)]: the position of the first element equal to [x]. *)
Fixpoint list_index (l : list string) (x : string) : option nat :=
  match l with
  | [] => None
  | y :: l' => if decide (y = x) then Some 0 else S <$> list_index l' x
  end.

Definition index (l : list string) (x : string) : M nat :=
  match list_index l x with
  | Some i => mret i
  | None => raise ValueError
  end.

End Py.

(** ** The script *)

Import Py.

Definition input_file : string := "product_template_corrected.csv".
Definition output_file : string := "product_template_final.csv".

(** The body of the row loop: the row after the guarded assignment
    [if len(row) > fulfillment_col: row[fulfillment_col] = 'manual']. *)
Definition fix_row (fulfillment_col : nat) (r : row) : row :=
  if decide (fulfillment_col < length r) then <[fulfillment_col := "manual"]> r else r.

(** The part of the [with] block that follows the creation of the reader
    (lines 14 to 25). *)
Definition rewrite_rows (reader : Csv.Stream) : M nat :=
  '(header, reader) ← next reader;
  writerow header;;
  fulfillment_col ← index header "Variant Fulfillment Service";
  for_in reader (λ r, writerow (fix_row fulfillment_col r));;
  mret fulfillment_col.

(** fix_csv.py, from the first [open] to the last [print]. *)
Definition fix_csv : M unit :=
  infile ← open_r;
  open_w;;
  fulfillment_col ← rewrite_rows (Csv.reader (TextFile.lines infile));
  print ("✅ Fixed CSV saved to " +:+ output_file);;
  print ("   Changed column " +:+ pretty fulfillment_col
         +:+ " (Variant Fulfillment Service) to 'manual'").

(** A run on an input file with content [text], the output file not yet
    touched, nothing printed. *)
Definition initial (text : string) : world :=
  {| source := Some text; destination := None; stdout := [] |}.

(** The lines the script prints after a successful pass. *)
Definition report (fulfillment_col : nat) : list string :=
  [ "✅ Fixed CSV saved to " +:+ output_file;
    "   Changed column " +:+ pretty fulfillment_col
      +:+ " (Variant Fulfillment Service) to 'manual'" ].

(** The records the reader yields for an input file with content [text]. *)
Definition records (text : string) : Csv.Stream :=
  Csv.reader (TextFile.lines text).

(** How a pass over the data rows ends. *)
Definition loop_result (fin : Csv.Ending) : exn + unit :=
  match fin with
  | Csv.Exhausted => inr ()
  | Csv.Raises e => inl (csv_Error e)
  end.

(** ** Sample inputs *)

Definition nl : string := String Csv.LF "".

(** The three-line example of the specification. *)
Definition catalogue : string :=
  "Title,Variant Fulfillment Service,Price" +:+ nl +:+
  "Widget,third-party,10" +:+ nl +:+
  "Gadget,9" +:+ nl.

(** A data row that stops before the target column. *)
Definition short_rows : string :=
  "Title,Price,Variant Fulfillment Service" +:+ nl +:+
  "Widget,10,third-party" +:+ nl +:+
  "Gadget,9" +:+ nl.

(** A header without the target column. *)
Definition no_column : string :=
  "Title,Price" +:+ nl +:+
  "Widget,10" +:+ nl.

(** A header that names the target column twice. *)
Definition twice : string :=
  "Variant Fulfillment Service,Title,Variant Fulfillment Service" +:+ nl +:+
  "third-party,Widget,drop-ship" +:+ nl.

(** A string of [n] ordinary characters. *)
Fixpoint padding (n : nat) : string :=
  match n with
  | 0 => ""
  | S n' => String "x" (padding n')
  end.

(** A quoted field opened on the third line and never closed, [n] characters
    long. *)
Definition runaway (n : nat) : string :=
  "Title,Variant Fulfillment Service" +:+ nl +:+
  "Widget,third-party" +:+ nl +:+
  String Csv.quotechar (padding n).

(** A quoted field that is never closed. *)
Definition open_quote : string :=
  "Title,Variant Fulfillment Service" +:+ nl +:+
  "Widget," +:+ String Csv.quotechar "third-party" +:+ nl.

(** CR LF line ends, and a quoted field that holds a CR and a CR LF. *)
Definition carriage : string :=
  "Title,Variant Fulfillment Service" +:+ String Csv.CR nl +:+
  String Csv.quotechar ("one" +:+ String Csv.CR ("two" +:+ String Csv.CR (nl +:+
    "three" +:+ String Csv.quotechar (",third-party" +:+ String Csv.CR nl)))).


(** [seg], read on its own, is the one row [r]: [seg] is a text of [r]. *)
Definition row_text (seg : string) (r : row) : Prop :=
  records seg = {| Csv.rows := [r]; Csv.ending := Csv.Exhausted |}.

(** The byte-for-byte reading of "short rows pass through": the input file is
    the header's text [head] followed by the texts [segs] of its data rows;
    whenever the row of [segs] at position [i] has no more fields than the
    target ordinal, the text written for the row at that position of the
    destination is that same text. *)
Definition short_rows_byte_identical (head : string) (segs : list string) : Prop :=
  ∀ header col i seg r out,
    row_text head header →
    list_index header "Variant Fulfillment Service" = Some col →
    segs !! i = Some seg →
    row_text seg r →
    length r ≤ col →
    destination (fix_csv (initial (head +:+ foldr String.append "" segs))).2 = Some out →
    ∃ r', out !! S i = Some r' ∧ Csv.writerow r' = seg.

(** A header line and a short data row whose first field is quoted without
    need, both ended by CR LF as the writer ends its lines. *)
Definition quoted_head : string :=
  "Title,Price,Variant Fulfillment Service" +:+ String Csv.CR nl.

Definition quoted_gadget : string :=
  String Csv.quotechar ("Gadget" +:+ String Csv.quotechar (",9" +:+ String Csv.CR nl)).

(** The all-or-nothing reading of a run from [w]: it succeeds, or it leaves
    the destination as it found it or without a single row. *)
Definition all_or_nothing (w : world) : Prop :=
  (fix_csv w).1 = inr () ∨
  destination (fix_csv w).2 = destination w ∨
  destination (fix_csv w).2 = Some [].

(** Unbalanced quoting: the text holds an odd number of quote characters. *)
Fixpoint count_char (c : ascii) (s : string) : nat :=
  match s with
  | "" => 0
  | String a rest => (if bool_decide (a = c) then 1 else 0) + count_char c rest
  end.

Definition unbalanced_quoting (text : string) : Prop :=
  Nat.odd (count_char Csv.quotechar text) = true.

(** The reading of a run on [text] under which malformed quoting is fatal:
    the run ends in an error of the parser. *)
Definition malformed_is_fatal (text : string) : Prop :=
  unbalanced_quoting text →
  ∃ e, (fix_csv (initial text)).1 = inl (csv_Error e).

(** * Properties *)

(** ** The reader and the writer *)

Module FeedFacts.

Import Csv TextFile Feed.

Implicit Types (s t cur line : string) (c : ascii) (self : ReaderObj).

Lemma sapp_cons c s t : String c s +:+ t = String c (s +:+ t).
Proof. reflexivity. Qed.

Lemma sapp_nil_l s : "" +:+ s = s.
Proof. reflexivity. Qed.

Lemma sapp_nil_r s : s +:+ "" = s.
Proof. induction s as [|c s IH]; [done|]. by rewrite sapp_cons, IH. Qed.

Lemma sapp_assoc s t u : (s +:+ t) +:+ u = s +:+ (t +:+ u).
Proof. induction s as [|c s IH]; [done|]. by rewrite !sapp_cons, IH. Qed.

Lemma slength_app s t : String.length (s +:+ t) = String.length s + String.length t.
Proof. induction s as [|c s IH]; [done|]. rewrite sapp_cons. simpl. by rewrite IH. Qed.

Lemma sapp_snoc_ne s c : s +:+ String c "" ≠ ""%string.
Proof. by destruct s. Qed.

(** ** Lines and characters *)

Lemma process_line_app self s t :
  process_line self (s +:+ t) =
    match process_line self s with
    | inl e => inl e
    | inr self' => process_line self' t
    end.
Proof.
  revert self. induction s as [|c s IH]; intros self; [done|].
  rewrite sapp_cons. simpl.
  destruct (parse_process_char self (Some c)); [done | apply IH].
Qed.

Lemma process_line_snoc self s c :
  process_line self (s +:+ String c "") =
    match process_line self s with
    | inl e => inl e
    | inr self' => parse_process_char self' (Some c)
    end.
Proof.
  rewrite process_line_app. destruct (process_line self s) as [e|self']; [done|].
  simpl. by destruct (parse_process_char self' (Some c)).
Qed.

(** The stream of the lines of a text is the stream of its characters. *)
Lemma feed_readlines s self cur :
  iternext self (readlines cur s) =
    feed (process_line self cur) (negb (bool_decide (cur = ""%string))) s.
Proof.
  revert self cur. induction s as [|c s IH]; intros self cur; simpl.
  - case_bool_decide as Hcur; simpl.
    + by subst.
    + unfold end_of_line. destruct (process_line self cur) as [e|self1]; [done|].
      destruct (parse_process_char self1 EOL) as [e|self2]; [done|].
      by case_bool_decide.
  - rewrite <- process_line_snoc. case_bool_decide as Hc; simpl.
    + unfold end_of_line.
      destruct (process_line self (cur +:+ String c "")) as [e|self1]; [done|].
      destruct (parse_process_char self1 EOL) as [e|self2]; [done|].
      case_bool_decide; by rewrite IH.
    + rewrite IH. by rewrite bool_decide_false by apply sapp_snoc_ne.
Qed.

Lemma feed_lines text :
  Csv.reader (TextFile.lines text) =
    feed (inr parse_reset) false (universal_newlines text).
Proof. unfold Csv.reader, TextFile.lines. by rewrite feed_readlines. Qed.


(** ** One step of the automaton *)

Lemma all_chars_app P s t : all_chars P (s +:+ t) = all_chars P s && all_chars P t.
Proof.
  induction s as [|c s IH]; [done|].
  rewrite sapp_cons. simpl. by rewrite IH, andb_assoc.
Qed.

Lemma field_ok_empty : field_ok "".
Proof. split; [done|]. unfold within_limit. simpl. apply N.le_0_l. Qed.

Lemma field_ok_snoc f c :
  field_ok f → not_CR c = true → (N.of_nat (String.length f) < field_limit)%N →
  field_ok (f +:+ String c "").
Proof.
  intros [Hcr Hlen] Hc Hlt. split.
  - rewrite all_chars_app, Hcr. simpl. by rewrite Hc.
  - unfold within_limit in *. rewrite slength_app. simpl. lia.
Qed.

Lemma reader_ok_reset : reader_ok parse_reset.
Proof. split; [apply field_ok_empty | constructor]. Qed.

Lemma reader_ok_save self : reader_ok self → reader_ok (parse_save_field self).
Proof.
  intros [Hf Hfs]. split; simpl; [apply field_ok_empty|].
  apply Forall_app. split; [done | by constructor].
Qed.

Lemma reader_ok_set_state st self : reader_ok self → reader_ok (set_state st self).
Proof. by intros [Hf Hfs]. Qed.

Lemma parse_add_char_inr self c self' :
  parse_add_char self c = inr self' →
  (N.of_nat (String.length (field self)) < field_limit)%N ∧
  self' = {| fields := fields self; field := field self +:+ String c ""; state := state self |}.
Proof.
  unfold parse_add_char, field_len.
  destruct (field_limit <=? N.of_nat (String.length (field self)))%N eqn:Hle; [done|].
  intros [= <-]. split; [|done]. by apply N.leb_gt.
Qed.

Lemma parse_add_char_budget self c :
  (N.of_nat (String.length (field self)) < field_limit)%N →
  parse_add_char self c =
    inr {| fields := fields self; field := field self +:+ String c ""; state := state self |}.
Proof.
  intros Hlt. unfold parse_add_char, field_len.
  by rewrite (proj2 (N.leb_gt _ _) Hlt).
Qed.

Lemma reader_ok_add_char self c self' :
  reader_ok self → not_CR c = true →
  parse_add_char self c = inr self' → reader_ok self'.
Proof.
  intros [Hf Hfs] Hc [Hlt ->]%parse_add_char_inr. split; simpl; [|done].
  by apply field_ok_snoc.
Qed.

(** Case analysis on a step: the state, the character class, the guard of
    [parse_add_char]. *)
Ltac step_cases self :=
  unfold parse_process_char, start_field, add_char_then;
  destruct (state self) eqn:?; simpl;
  repeat match goal with
         | |- context [is_newline ?c] => destruct (is_newline c) eqn:?
         | |- context [bool_decide ?P] => destruct (bool_decide P) eqn:?
         | |- context [parse_add_char ?s ?c] => destruct (parse_add_char s c) eqn:?
         end; simpl.

Lemma reader_ok_char self c self' :
  reader_ok self → not_CR c = true →
  parse_process_char self (Some c) = inr self' → reader_ok self'.
Proof.
  intros Hok Hc. step_cases self; intros [= <-];
    eauto using reader_ok_save, reader_ok_set_state, reader_ok_add_char.
Qed.

Lemma reader_ok_EOL self self' :
  reader_ok self → parse_process_char self EOL = inr self' → reader_ok self'.
Proof.
  intros Hok. step_cases self; intros [= <-];
    eauto using reader_ok_save, reader_ok_set_state.
Qed.

(** The EOL step never fails, never grows the field, and leaves the parser
    between records or inside an open quoted field. *)
Lemma EOL_step self :
  ∃ self', parse_process_char self EOL = inr self' ∧
           String.length (field self') ≤ String.length (field self) ∧
           (state self' = START_RECORD ∨ state self' = IN_QUOTED_FIELD).
Proof.
  step_cases self; eexists; (split; [done|]); simpl; split; (lia || auto).
Qed.

(** A character that is not a line end, met outside EAT_CRNL while the field
    is below the limit: the step succeeds, the field grows by one character
    at most and the parser stays outside EAT_CRNL. *)
Lemma char_step self c :
  state self ≠ EAT_CRNL →
  is_newline c = false →
  (N.of_nat (String.length (field self)) < field_limit)%N →
  ∃ self', parse_process_char self (Some c) = inr self' ∧
           String.length (field self') ≤ S (String.length (field self)) ∧
           state self' ≠ EAT_CRNL.
Proof.
  intros Hst Hnl Hlt.
  unfold parse_process_char, start_field, add_char_then.
  rewrite Hnl.
  destruct (state self) eqn:Hs; try done; simpl;
    repeat case_bool_decide; rewrite ?parse_add_char_budget by done;
    eexists; (split; [done|]); simpl; rewrite ?slength_app; simpl;
    (split; [lia | rewrite ?Hs; done]).
Qed.

(** LF outside EAT_CRNL: the same, except that the parser may now be in
    EAT_CRNL. *)
Lemma LF_step self :
  state self ≠ EAT_CRNL →
  (N.of_nat (String.length (field self)) < field_limit)%N →
  ∃ self', parse_process_char self (Some LF) = inr self' ∧
           String.length (field self') ≤ S (String.length (field self)).
Proof.
  intros Hst Hlt.
  unfold parse_process_char, start_field, add_char_then.
  destruct (state self) eqn:Hs; try done; simpl;
    rewrite ?parse_add_char_budget by done;
    eexists; (split; [done|]); simpl; rewrite ?slength_app; simpl; lia.
Qed.

(** ** Streams of CR-free text *)

Lemma not_CR_LF c : not_CR c = true → bool_decide (c = LF) = false → is_newline c = false.
Proof.
  unfold not_CR, is_newline. intros Hc ->. simpl.
  by destruct (bool_decide (c = CR)).
Qed.

Lemma iternext_nil_ending self : ending (iternext self []) = Exhausted.
Proof. simpl. by destruct (_ || _). Qed.

Lemma iternext_nil_rows self :
  reader_ok self → Forall (Forall field_ok) (rows (iternext self [])).
Proof.
  intros Hok. simpl. destruct (_ || _); simpl; [|constructor].
  constructor; [|constructor]. apply (reader_ok_save self Hok).
Qed.

(** Once a character of a line has raised, the rest of the text is not
    looked at. *)
Lemma feed_raised e s : feed (inl e) true s = raises e.
Proof.
  induction s as [|c s IH]; [done|]. cbn [feed]. by case_bool_decide.
Qed.

(** Every field of every record read from CR-free text is CR-free and within
    the field limit. *)
Lemma feed_rows_ok s self pending :
  all_chars not_CR s = true → reader_ok self →
  Forall (Forall field_ok) (rows (feed (inr self) pending s)).
Proof.
  revert self pending. induction s as [|c s IH]; intros self pending Hs Hok.
  - simpl. destruct pending; [|by apply iternext_nil_rows].
    unfold end_of_line.
    destruct (parse_process_char self EOL) as [e|self2] eqn:Hstep; [constructor|].
    pose proof (reader_ok_EOL _ _ Hok Hstep) as Hok2.
    case_bool_decide; simpl.
    + constructor; [apply Hok2 | constructor].
    + by apply iternext_nil_rows.
  - simpl in Hs. apply andb_prop in Hs as [Hc Hs]. simpl.
    destruct (parse_process_char self (Some c)) as [e|self1] eqn:Hstep.
    + case_bool_decide; [constructor|]. rewrite feed_raised. constructor.
    + pose proof (reader_ok_char _ _ _ Hok Hc Hstep) as Hok1.
      case_bool_decide; [|by apply IH].
      unfold end_of_line.
      destruct (parse_process_char self1 EOL) as [e|self2] eqn:Hstep2; [constructor|].
      pose proof (reader_ok_EOL _ _ Hok1 Hstep2) as Hok2.
      case_bool_decide; simpl.
      * constructor; [apply Hok2|]. apply IH; [done | apply reader_ok_reset].
      * by apply IH.
Qed.

(** Text that has no CR and fits within the field limit is read without
    error, whatever its quoting. *)
Lemma feed_no_error s self pending :
  all_chars not_CR s = true →
  state self ≠ EAT_CRNL →
  (N.of_nat (String.length (field self) + String.length s) ≤ field_limit)%N →
  ending (feed (inr self) pending s) = Exhausted.
Proof.
  revert self pending. induction s as [|c s IH]; intros self pending Hs Hst Hlen.
  - simpl. destruct pending; [|apply iternext_nil_ending].
    unfold end_of_line. destruct (EOL_step self) as (self2 & -> & _ & _).
    case_bool_decide; [done | apply iternext_nil_ending].
  - simpl in Hs. apply andb_prop in Hs as [Hc Hs]. simpl in Hlen. simpl.
    case_bool_decide as HLF.
    + subst c. destruct (LF_step self) as (self1 & -> & Hlen1); [done | lia |].
      unfold end_of_line. destruct (EOL_step self1) as (self2 & -> & Hlen2 & Hst2).
      case_bool_decide as Hrec; simpl.
      * apply IH; [done | done | simpl; lia].
      * apply IH; [done | | lia]. destruct Hst2 as [-> | ->]; done.
    + destruct (char_step self c) as (self1 & -> & Hlen1 & Hst1);
        [done | apply not_CR_LF; [done | by apply bool_decide_eq_false] | lia |].
      apply IH; [done | done | lia].
Qed.

(** ** Universal newlines *)

Lemma universal_newlines_facts s :
  (all_chars not_CR (universal_newlines s) = true ∧
   String.length (universal_newlines s) ≤ String.length s) ∧
  ∀ c, all_chars not_CR (universal_newlines (String c s)) = true ∧
       String.length (universal_newlines (String c s)) ≤ S (String.length s).
Proof.
  induction s as [|c' s [[IH1 IH2] IH3]].
  - split; [done|]. intros c. simpl. case_bool_decide as Hc; simpl; [done|].
    unfold not_CR. by rewrite bool_decide_false.
  - split; [apply IH3|]. intros c.
    change (universal_newlines (String c (String c' s)))
      with (if bool_decide (c = CR)
            then if bool_decide (c' = LF)
                 then String LF (universal_newlines s)
                 else String LF (universal_newlines (String c' s))
            else String c (universal_newlines (String c' s))).
    destruct (IH3 c') as [IH4 IH5].
    case_bool_decide as Hc; [case_bool_decide|].
    all: (split; [|cbn [String.length]; lia]);
      cbn [all_chars]; rewrite ?IH1, ?IH4; try done.
    unfold not_CR. by rewrite bool_decide_false.
Qed.

Lemma universal_newlines_no_CR s : all_chars not_CR (universal_newlines s) = true.
Proof. apply universal_newlines_facts. Qed.

Lemma universal_newlines_length s :
  String.length (universal_newlines s) ≤ String.length s.
Proof. apply universal_newlines_facts. Qed.

(** The file object leaves CR-free text alone and turns CR LF into LF. *)
Lemma universal_newlines_CRLF s t :
  all_chars not_CR s = true →
  universal_newlines (s +:+ String CR (String LF t)) =
    s +:+ String LF (universal_newlines t).
Proof.
  induction s as [|c s IH]; intros Hs.
  - reflexivity.
  - simpl in Hs. apply andb_prop in Hs as [Hc Hs]. rewrite !sapp_cons. simpl.
    unfold not_CR in Hc. destruct (bool_decide (c = CR)); [done|].
    by rewrite IH.
Qed.

Lemma universal_newlines_id s :
  all_chars not_CR s = true → universal_newlines s = s.
Proof.
  induction s as [|c s IH]; [done|]. simpl. intros [Hc Hs]%andb_prop.
  unfold not_CR in Hc. destruct (bool_decide (c = CR)); [done|]. by rewrite IH.
Qed.

(** ** What the reader yields for a file *)

Lemma records_rows_ok text :
  Forall (Forall field_ok) (rows (records text)).
Proof.
  unfold records. rewrite feed_lines.
  apply feed_rows_ok; [apply universal_newlines_no_CR | apply reader_ok_reset].
Qed.

Lemma records_no_error text :
  (N.of_nat (String.length text) ≤ field_limit)%N →
  ending (records text) = Exhausted.
Proof.
  intros Hlen. unfold records. rewrite feed_lines.
  apply feed_no_error; [apply universal_newlines_no_CR | done |].
  pose proof (universal_newlines_length text). simpl. lia.
Qed.

(** ** The writer, field by field *)

Lemma join_append_data_eq f quoted :
  join_append_data f quoted = (doubled f, quoted || needs_quotes f).
Proof.
  revert quoted. induction f as [|c f IH]; intros quoted; simpl.
  - by rewrite orb_false_r.
  - rewrite IH. f_equal. unfold special. by rewrite <- !orb_assoc.
Qed.

Lemma join_append_eq n f quoted :
  join_append n f quoted =
    (if bool_decide (0 < n) then String delimiter "" else "") +:+
    (if quoted || needs_quotes f
     then String quotechar (doubled f +:+ String quotechar "")
     else f).
Proof.
  unfold join_append. rewrite join_append_data_eq.
  destruct (quoted || needs_quotes f) eqn:Hq; [done|].
  f_equal. apply orb_false_elim in Hq as [_ Hq]. clear -Hq.
  induction f as [|c f IH]; [done|]. simpl in *.
  apply orb_false_elim in Hq as [Hc Hq]. unfold special in Hc.
  rewrite IH by done.
  destruct (bool_decide (c = quotechar)); [|done].
  by rewrite orb_true_r in Hc.
Qed.

Lemma special_newline c : special c = false → is_newline c = false ∧ bool_decide (c = LF) = false.
Proof.
  unfold special, is_newline.
  destruct (bool_decide (c = delimiter)), (bool_decide (c = quotechar)),
    (bool_decide (c = CR)), (bool_decide (c = LF)); done.
Qed.

Lemma all_chars_doubled f : all_chars not_CR f = true → all_chars not_CR (doubled f) = true.
Proof.
  induction f as [|c f IH]; [done|]. simpl. intros [Hc Hf]%andb_prop.
  case_bool_decide; simpl; rewrite ?Hc, IH; subst; done.
Qed.

(** ** One character of a stream *)

Lemma feed_char self pending c t self' :
  parse_process_char self (Some c) = inr self' →
  bool_decide (c = LF) = false →
  feed (inr self) pending (String c t) = feed (inr self') true t.
Proof. intros Hstep HLF. cbn [feed]. by rewrite Hstep, HLF. Qed.

Lemma feed_LF self pending t self1 self2 :
  parse_process_char self (Some LF) = inr self1 →
  parse_process_char self1 EOL = inr self2 →
  state self2 ≠ START_RECORD →
  feed (inr self) pending (String LF t) = feed (inr self2) false t.
Proof.
  intros Hstep HEOL Hst. cbn [feed]. rewrite Hstep.
  rewrite bool_decide_true by done. unfold end_of_line. rewrite HEOL.
  by rewrite bool_decide_false.
Qed.

(** ** Reading back what the writer wrote *)

Section ReadBack.

Variables (done : list string) (rest : string).

Implicit Types (b f p : string) (pending : bool).

(** Inside an unquoted field: ordinary characters extend the field. *)
Lemma feed_plain p b pending pending' c t :
  needs_quotes p = false →
  (N.of_nat (String.length b + String.length p) ≤ field_limit)%N →
  feed (inr {| fields := done; field := b; state := IN_FIELD |}) pending
       (p +:+ String c t) =
  feed (inr {| fields := done; field := b +:+ p; state := IN_FIELD |}) pending'
       (String c t).
Proof.
  revert b pending. induction p as [|a p IH]; intros b pending Hp Hlen.
  - by rewrite sapp_nil_r.
  - simpl in Hp. apply orb_false_elim in Hp as [Ha Hp].
    destruct (special_newline _ Ha) as [Hnl HLF].
    rewrite sapp_cons. cbn [feed]. rewrite HLF.
    unfold parse_process_char. cbn [state]. rewrite Hnl.
    unfold special in Ha. destruct (bool_decide (a = delimiter)); [done|].
    rewrite parse_add_char_budget by (simpl in *; lia). cbn [fields field state].
    rewrite (IH (b +:+ String a "") true) by (rewrite ?slength_app; simpl in *; done || lia).
    by rewrite sapp_assoc.
Qed.


(** The delimiter ends an unquoted field. *)
Lemma feed_plain_delimiter b pending t :
  feed (inr {| fields := done; field := b; state := IN_FIELD |}) pending
       (String delimiter t) =
  feed (inr {| fields := done ++ [b]; field := ""; state := START_FIELD |}) true t.
Proof. reflexivity. Qed.

(** LF ends an unquoted field and the record. *)
Lemma feed_plain_LF b pending t :
  feed (inr {| fields := done; field := b; state := IN_FIELD |}) pending
       (String LF t) =
  yield (done ++ [b]) (feed (inr parse_reset) false t).
Proof. reflexivity. Qed.

(** Inside a quoted field: a doubled quote is one quote character, LF is a
    character of the field, and the closing quote leaves the field. *)
Lemma step_in_quotes b a :
  a ≠ quotechar →
  (N.of_nat (String.length b) < field_limit)%N →
  parse_process_char {| fields := done; field := b; state := IN_QUOTED_FIELD |} (Some a) =
    inr {| fields := done; field := b +:+ String a ""; state := IN_QUOTED_FIELD |}.
Proof.
  intros Ha Hb. unfold parse_process_char. cbn [state].
  rewrite bool_decide_false by done. by rewrite parse_add_char_budget.
Qed.

Lemma step_doubled_quote b :
  (N.of_nat (String.length b) < field_limit)%N →
  parse_process_char {| fields := done; field := b; state := QUOTE_IN_QUOTED_FIELD |}
                     (Some quotechar) =
    inr {| fields := done; field := b +:+ String quotechar ""; state := IN_QUOTED_FIELD |}.
Proof.
  intros Hb. unfold parse_process_char, add_char_then. cbn [state].
  rewrite bool_decide_true by done. by rewrite parse_add_char_budget.
Qed.

Lemma feed_quoted f b pending t :
  (N.of_nat (String.length b + String.length f) ≤ field_limit)%N →
  feed (inr {| fields := done; field := b; state := IN_QUOTED_FIELD |}) pending
       (doubled f +:+ String quotechar t) =
  feed (inr {| fields := done; field := b +:+ f; state := QUOTE_IN_QUOTED_FIELD |})
       true t.
Proof.
  revert b pending. induction f as [|a f IH]; intros b pending Hlen.
  - by rewrite sapp_nil_r.
  - assert (N.of_nat (String.length b) < field_limit)%N as Hb by (simpl in Hlen; lia).
    assert (N.of_nat (String.length (b +:+ String a "") + String.length f)
            ≤ field_limit)%N as Hlen'
      by (rewrite slength_app; simpl in *; lia).
    cbn [doubled]. case_bool_decide as Hq.
    + subst a. rewrite !sapp_cons.
      erewrite feed_char; [|reflexivity|done].
      erewrite feed_char; [|by apply step_doubled_quote|done].
      rewrite IH by done. by rewrite sapp_assoc.
    + rewrite sapp_cons. destruct (decide (a = LF)) as [->|HLF].
      * erewrite feed_LF; [|by apply step_in_quotes|reflexivity|done].
        rewrite IH by done. by rewrite sapp_assoc.
      * erewrite feed_char; [|by apply step_in_quotes|by apply bool_decide_false].
        rewrite IH by done. by rewrite sapp_assoc.
Qed.

Lemma feed_quoted_delimiter b pending t :
  feed (inr {| fields := done; field := b; state := QUOTE_IN_QUOTED_FIELD |}) pending
       (String delimiter t) =
  feed (inr {| fields := done ++ [b]; field := ""; state := START_FIELD |}) true t.
Proof. reflexivity. Qed.

Lemma feed_quoted_LF b pending t :
  feed (inr {| fields := done; field := b; state := QUOTE_IN_QUOTED_FIELD |}) pending
       (String LF t) =
  yield (done ++ [b]) (feed (inr parse_reset) false t).
Proof. reflexivity. Qed.

End ReadBack.

(** ** Fields and records *)

Section Records.

Implicit Types (done r : list string) (f : string) (pending : bool)
  (st : ParserState).

Lemma join_append_S n f quoted :
  join_append (S n) f quoted = String delimiter (join_append 0 f quoted).
Proof.
  rewrite !join_append_eq. rewrite bool_decide_true by lia.
  by rewrite bool_decide_false by lia.
Qed.

Lemma join_append_0 f :
  join_append 0 f false =
    if needs_quotes f then String quotechar (doubled f +:+ String quotechar "") else f.
Proof. rewrite join_append_eq. by rewrite bool_decide_false by lia. Qed.

Lemma step_open_quote st done :
  starting st →
  parse_process_char {| fields := done; field := ""; state := st |} (Some quotechar) =
    inr {| fields := done; field := ""; state := IN_QUOTED_FIELD |}.
Proof. by intros [-> | ->]. Qed.

Lemma step_empty_field st done :
  starting st →
  parse_process_char {| fields := done; field := ""; state := st |} (Some delimiter) =
    inr {| fields := done ++ [""%string]; field := ""; state := START_FIELD |}.
Proof. by intros [-> | ->]. Qed.

Lemma step_first_char st done a :
  starting st → special a = false →
  parse_process_char {| fields := done; field := ""; state := st |} (Some a) =
    inr {| fields := done; field := String a ""; state := IN_FIELD |}.
Proof.
  intros Hst Ha. destruct (special_newline _ Ha) as [Hnl _].
  unfold special in Ha.
  destruct (bool_decide (a = delimiter)) eqn:Hd; [done|].
  destruct (bool_decide (a = quotechar)) eqn:Hq; [done|].
  destruct Hst as [-> | ->];
    unfold parse_process_char, start_field, add_char_then; cbn [state set_state];
    by rewrite Hnl, Hd, Hq.
Qed.

(** A written field followed by the delimiter is read as that field. *)
Lemma feed_field_delimiter st done f pending t :
  starting st → within_limit f →
  feed (inr {| fields := done; field := ""; state := st |}) pending
       (join_append 0 f false +:+ String delimiter t) =
  feed (inr {| fields := done ++ [f]; field := ""; state := START_FIELD |}) true t.
Proof.
  intros Hst Hlen. rewrite join_append_0. destruct (needs_quotes f) eqn:Hq.
  - rewrite sapp_cons, sapp_assoc, sapp_cons, sapp_nil_l.
    erewrite feed_char; [|by apply step_open_quote|done].
    by rewrite feed_quoted, feed_quoted_delimiter.
  - destruct f as [|a f].
    + erewrite sapp_nil_l, feed_char; [done|by apply step_empty_field|done].
    + simpl in Hq. apply orb_false_elim in Hq as [Ha Hq].
      rewrite sapp_cons.
      erewrite feed_char; [|by apply step_first_char|by apply special_newline].
      rewrite (feed_plain _ _ _ _ true) by done.
      by rewrite feed_plain_delimiter.
Qed.

(** A written field followed by LF is read as that field, and ends the
    record.  An empty unquoted field must not be the whole record. *)
Lemma feed_field_LF st done f pending t :
  starting st → (st = START_RECORD → join_append 0 f false ≠ ""%string) →
  within_limit f →
  feed (inr {| fields := done; field := ""; state := st |}) pending
       (join_append 0 f false +:+ String LF t) =
  yield (done ++ [f]) (feed (inr parse_reset) false t).
Proof.
  intros Hst Hne Hlen. rewrite join_append_0 in *. destruct (needs_quotes f) eqn:Hq.
  - rewrite sapp_cons, sapp_assoc, sapp_cons, sapp_nil_l.
    erewrite feed_char; [|by apply step_open_quote|done].
    by rewrite feed_quoted, feed_quoted_LF.
  - destruct f as [|a f].
    + destruct Hst as [-> | ->]; [done|]. by destruct Hne.
    + simpl in Hq. apply orb_false_elim in Hq as [Ha Hq].
      rewrite sapp_cons.
      erewrite feed_char; [|by apply step_first_char|by apply special_newline].
      rewrite (feed_plain _ _ _ _ true) by done.
      by rewrite feed_plain_LF.
Qed.

(** The fields of a record, joined and followed by LF, are read as that
    record. *)
Lemma feed_fields fs n st done f pending t :
  starting st →
  (st = START_RECORD → join_append 0 f false +:+ join_fields (S n) fs ≠ ""%string) →
  Forall within_limit (f :: fs) →
  feed (inr {| fields := done; field := ""; state := st |}) pending
       (join_append 0 f false +:+ join_fields (S n) fs +:+ String LF t) =
  yield (done ++ f :: fs) (feed (inr parse_reset) false t).
Proof.
  revert n st done f pending. induction fs as [|g fs IH];
    intros n st done f pending Hst Hne [Hf Hfs]%Forall_cons.
  - cbn [join_fields]. rewrite sapp_nil_l. apply feed_field_LF; [done | | done].
    intros Hrec. specialize (Hne Hrec). by rewrite sapp_nil_r in Hne.
  - cbn [join_fields]. rewrite join_append_S, sapp_cons, sapp_cons, sapp_assoc.
    rewrite feed_field_delimiter by done.
    rewrite (IH (S n) START_FIELD); [|by left|done|done].
    by rewrite <- app_assoc.
Qed.

Lemma join_fields_nil_inv n r : join_fields n r = ""%string → r = [] ∨ r = [""%string] ∧ n = 0.
Proof.
  destruct r as [|f fs]; [by left|]. cbn [join_fields]. intros Hrec. right.
  destruct n as [|n]; [|by rewrite join_append_S in Hrec].
  rewrite join_append_0 in Hrec.
  destruct (needs_quotes f); [done|]. destruct f; [|done].
  rewrite sapp_nil_l in Hrec. destruct fs as [|g fs]; [done|].
  cbn [join_fields] in Hrec. by rewrite join_append_S in Hrec.
Qed.

(** A written record followed by LF is read as that record. *)
Lemma feed_record r pending t :
  Forall within_limit r →
  feed (inr parse_reset) pending (join_record r +:+ String LF t) =
  yield r (feed (inr parse_reset) false t).
Proof.
  intros Hr. unfold join_record.
  destruct r as [|f fs]; [done|].
  rewrite bool_decide_true by (simpl; lia). cbn [andb].
  case_bool_decide as Hrec.
  - assert (join_fields 0 (f :: fs) = ""%string) as Hnil
      by (by destruct (join_fields 0 (f :: fs))).
    apply join_fields_nil_inv in Hnil as [? | [[= -> ->] _]]; done.
  - cbn [join_fields]. rewrite sapp_assoc.
    unfold parse_reset. rewrite (feed_fields fs 0 START_RECORD []); [done|by right| |done].
    intros _ Hnil. apply Hrec. cbn [join_fields]. by rewrite Hnil.
Qed.

End Records.

(** ** Reading back a written file *)

Lemma join_append_no_CR n f quoted :
  all_chars not_CR f = true → all_chars not_CR (join_append n f quoted) = true.
Proof.
  intros Hf. rewrite join_append_eq, all_chars_app.
  apply andb_true_intro. split; [by case_bool_decide|].
  destruct (quoted || needs_quotes f); [|done].
  cbn [all_chars]. rewrite all_chars_app, all_chars_doubled by done. done.
Qed.

Lemma join_fields_no_CR n r :
  Forall field_ok r → all_chars not_CR (join_fields n r) = true.
Proof.
  revert n. induction r as [|f r IH]; intros n Hr; [done|].
  apply Forall_cons in Hr as [[Hf _] Hr]. cbn [join_fields].
  by rewrite all_chars_app, join_append_no_CR, IH.
Qed.

Lemma join_record_no_CR r :
  Forall field_ok r → all_chars not_CR (join_record r) = true.
Proof.
  intros Hr. unfold join_record. destruct (_ && _); [done|].
  by apply join_fields_no_CR.
Qed.

Lemma field_ok_within_limit r : Forall field_ok r → Forall within_limit r.
Proof. intros Hr. eapply Forall_impl; [done|]. by intros f [_ Hf]. Qed.

(** The file written for rows of CR-free fields within the field limit is
    read back as those rows. *)
Lemma records_writerows rs :
  Forall (Forall field_ok) rs →
  records (writerows rs) = {| rows := rs; ending := Exhausted |}.
Proof.
  intros Hrs. unfold records. rewrite feed_lines.
  induction rs as [|r rs IH]; [done|].
  apply Forall_cons in Hrs as [Hr Hrs].
  cbn [writerows]. unfold writerow, lineterminator.
  rewrite sapp_assoc, !sapp_cons, sapp_nil_l.
  rewrite universal_newlines_CRLF by by apply join_record_no_CR.
  rewrite feed_record by by apply field_ok_within_limit.
  by rewrite IH.
Qed.

(** ** An open quoted field that outgrows the field limit *)

Lemma padding_no_CR n : all_chars not_CR (padding n) = true.
Proof. induction n as [|n IH]; [done|]. simpl. by rewrite IH. Qed.

(** A quoted field that stays open for more characters than the field limit
    allows makes the reader raise. *)
Lemma feed_runaway done n b pending :
  (N.of_nat (String.length b) ≤ field_limit)%N →
  (field_limit < N.of_nat (String.length b + n))%N →
  feed (inr {| fields := done; field := b; state := IN_QUOTED_FIELD |}) pending
       (padding n) =
  raises FieldLargerThanLimit.
Proof.
  revert b pending. induction n as [|n IH]; intros b pending Hb Hn.
  - lia.
  - cbn [padding].
    destruct (decide (N.of_nat (String.length b) < field_limit)%N) as [Hlt|Hge].
    + erewrite feed_char; [|by apply step_in_quotes|done].
      apply IH; rewrite slength_app; simpl; lia.
    + cbn [feed]. unfold parse_process_char. cbn [state].
      rewrite bool_decide_false by done.
      unfold parse_add_char, field_len. cbn [field].
      rewrite (proj2 (N.leb_le _ _)) by lia.
      rewrite bool_decide_false by done. apply feed_raised.
Qed.

Lemma records_runaway n :
  (field_limit < N.of_nat n)%N →
  records (runaway n) =
    {| rows := [ ["Title"; "Variant Fulfillment Service"];
                 ["Widget"; "third-party"] ]%string;
       ending := Raises FieldLargerThanLimit |}.
Proof.
  intros Hn. unfold records. rewrite feed_lines.
  rewrite universal_newlines_id.
  2:{ unfold runaway. rewrite !all_chars_app. simpl. by rewrite padding_no_CR. }
  unfold runaway, nl.
  change ("Title,Variant Fulfillment Service" +:+ String LF "" +:+
          "Widget,third-party" +:+ String LF "" +:+ String quotechar (padding n))
    with (join_record ["Title"; "Variant Fulfillment Service"]%string +:+ String LF
            (join_record ["Widget"; "third-party"]%string +:+ String LF
               (String quotechar (padding n)))).
  rewrite !feed_record.
  2,3: repeat constructor; unfold within_limit, field_limit; simpl; lia.
  erewrite feed_char; [|by apply (step_open_quote START_RECORD); right|done].
  rewrite feed_runaway; [done | simpl; unfold field_limit; lia | simpl; lia].
Qed.

End FeedFacts.

(** ** Positions in a list *)

Section ListIndex.

Implicit Types (l : list string) (x : string) (i j : nat).

Lemma list_index_lookup l x i :
  list_index l x = Some i → l !! i = Some x.
Proof.
  revert i. induction l as [|y l IH]; intros i; simpl; [done|].
  case_decide as Hy.
  - intros [= <-]. by subst.
  - destruct (list_index l x) as [k|] eqn:Hk; simpl; [|done].
    intros [= <-]. by apply IH.
Qed.

Lemma list_index_first l x i j :
  list_index l x = Some i → j < i → l !! j ≠ Some x.
Proof.
  revert i j. induction l as [|y l IH]; intros i j; simpl; [done|].
  case_decide as Hy.
  - intros [= <-]. lia.
  - destruct (list_index l x) as [k|] eqn:Hk; simpl; [|done].
    intros [= <-] Hj. destruct j as [|j]; simpl.
    + congruence.
    + apply (IH k); [done | lia].
Qed.

Lemma list_index_None l x : list_index l x = None ↔ x ∉ l.
Proof.
  induction l as [|y l IH]; simpl.
  - split; [intros _; apply not_elem_of_nil | done].
  - case_decide as Hy.
    + subst. split; [done|]. intros []. apply elem_of_cons. by left.
    + rewrite not_elem_of_cons. destruct (list_index l x); simpl.
      * split; [done|]. intros [_ Hx]. by apply IH in Hx.
      * split; [|done]. intros _. split; [congruence | by apply IH].
Qed.

Lemma list_index_Some_of_first l x i :
  l !! i = Some x → (∀ j, j < i → l !! j ≠ Some x) → list_index l x = Some i.
Proof.
  intros Hi Hfirst.
  destruct (list_index l x) as [k|] eqn:Hk.
  - f_equal. destruct (Nat.lt_trichotomy k i) as [Hlt | [-> | Hgt]]; [| done |].
    + apply list_index_lookup in Hk. by apply Hfirst in Hlt.
    + by apply (list_index_first _ _ _ _ Hk) in Hgt.
  - apply list_index_None in Hk. destruct Hk. by eapply list_elem_of_lookup_2.
Qed.

Lemma list_index_lt l x i : list_index l x = Some i → i < length l.
Proof. intros H%list_index_lookup. by eapply lookup_lt_Some. Qed.

End ListIndex.

(** ** The row loop body *)

Section FixRow.

Implicit Types (r : row) (col j : nat).

Lemma fix_row_length col r : length (fix_row col r) = length r.
Proof. unfold fix_row. case_decide; [apply length_insert | done]. Qed.

Lemma fix_row_target col r :
  col < length r → fix_row col r !! col = Some "manual"%string.
Proof.
  intros Hlen. unfold fix_row. rewrite decide_True by done.
  by apply list_lookup_insert_eq.
Qed.

Lemma fix_row_other col r j : j ≠ col → fix_row col r !! j = r !! j.
Proof.
  intros Hne. unfold fix_row. case_decide; [|done].
  by apply list_lookup_insert_ne.
Qed.

Lemma fix_row_short col r : length r ≤ col → fix_row col r = r.
Proof. intros Hlen. unfold fix_row. rewrite decide_False; [done | lia]. Qed.

Lemma fix_row_idemp col r : fix_row col (fix_row col r) = fix_row col r.
Proof.
  destruct (decide (col < length r)) as [Hlen|Hlen].
  - assert (col < length (fix_row col r)) as Hlen' by by rewrite fix_row_length.
    unfold fix_row at 1. rewrite decide_True by done.
    unfold fix_row. rewrite decide_True by done.
    apply list_insert_insert_eq.
  - rewrite !(fix_row_short col r) by lia. done.
Qed.

End FixRow.

(** ** One run, case by case *)

Section Run.

Implicit Types (w : world) (text : string) (header r : row) (data : list row)
  (fin : Csv.Ending) (col : nat).

(** The row loop writes the image of every record the reader yields, in
    order, and ends the way the reader does. *)
Lemma for_rows_writerow (f : row → row) data fin w out :
  destination w = Some out →
  for_rows data fin (λ r, writerow (f r)) w =
    (loop_result fin,
     {| source := source w;
        destination := Some (out ++ (f <$> data));
        stdout := stdout w |}).
Proof.
  revert w out. induction data as [|r data IH]; intros w out Hout; simpl.
  - rewrite app_nil_r, <- Hout. by destruct fin, w.
  - unfold mbind, M_bind, bind. simpl.
    erewrite IH; simpl; [|done].
    rewrite Hout. simpl. by rewrite <- app_assoc.
Qed.

Lemma fix_csv_no_file w :
  source w = None → fix_csv w = (inl FileNotFoundError, w).
Proof.
  intros Hsrc. unfold fix_csv, mbind, M_bind, bind, open_r. by rewrite Hsrc.
Qed.

Lemma fix_csv_no_header w text fin :
  source w = Some text →
  records text = {| Csv.rows := []; Csv.ending := fin |} →
  fix_csv w =
    (inl (match fin with
          | Csv.Exhausted => StopIteration
          | Csv.Raises e => csv_Error e
          end),
     {| source := source w; destination := Some []; stdout := stdout w |}).
Proof.
  destruct w as [src dst out]. simpl. intros -> Hrec. unfold records in Hrec.
  unfold fix_csv, rewrite_rows, mbind, M_bind, bind, open_r, next. simpl.
  rewrite Hrec. simpl. by destruct fin.
Qed.

Lemma fix_csv_no_column w text header data fin :
  source w = Some text →
  records text = {| Csv.rows := header :: data; Csv.ending := fin |} →
  list_index header "Variant Fulfillment Service" = None →
  fix_csv w =
    (inl ValueError,
     {| source := source w; destination := Some [header]; stdout := stdout w |}).
Proof.
  destruct w as [src dst out]. simpl. intros -> Hrec Hidx. unfold records in Hrec.
  unfold fix_csv, rewrite_rows, mbind, M_bind, bind, open_r, next, index. simpl.
  rewrite Hrec. simpl. by rewrite Hidx.
Qed.

Lemma fix_csv_column w text header data fin col :
  source w = Some text →
  records text = {| Csv.rows := header :: data; Csv.ending := fin |} →
  list_index header "Variant Fulfillment Service" = Some col →
  fix_csv w =
    (loop_result fin,
     {| source := source w;
        destination := Some (header :: (fix_row col <$> data));
        stdout := match fin with
                  | Csv.Exhausted => stdout w ++ report col
                  | Csv.Raises _ => stdout w
                  end |}).
Proof.
  destruct w as [src dst out]. simpl. intros -> Hrec Hidx. unfold records in Hrec.
  unfold fix_csv, rewrite_rows, mbind, M_bind, bind, open_r, next, index, for_in.
  simpl. rewrite Hrec. simpl. rewrite Hidx. simpl.
  erewrite for_rows_writerow; [|done]. simpl.
  destruct fin; simpl; [|done].
  unfold report, print. simpl. by rewrite <- app_assoc.
Qed.

(** A quoted field left open for more than the field limit: the reader
    raises in the middle of the row loop, after the header and the first data
    row have been written. *)
Lemma fix_csv_runaway n :
  (Csv.field_limit < N.of_nat n)%N →
  fix_csv (initial (runaway n)) =
    (inl (csv_Error Csv.FieldLargerThanLimit),
     {| source := Some (runaway n);
        destination := Some [ ["Title"; "Variant Fulfillment Service"];
                              ["Widget"; "manual"] ]%string;
        stdout := [] |}).
Proof.
  intros Hn.
  by rewrite (fix_csv_column (initial (runaway n)) (runaway n) _ _ _ 1 eq_refl
                (FeedFacts.records_runaway n Hn) eq_refl).
Qed.

Example runaway_run :
  fix_csv (initial (runaway (N.to_nat 131073))) =
    (inl (csv_Error Csv.FieldLargerThanLimit),
     {| source := Some (runaway (N.to_nat 131073));
        destination := Some [ ["Title"; "Variant Fulfillment Service"];
                              ["Widget"; "manual"] ]%string;
        stdout := [] |}).
Proof. apply fix_csv_runaway. rewrite N2Nat.id. by unfold Csv.field_limit. Qed.

End Run.

Example catalogue_run :
  fix_csv (initial catalogue) =
    (inr (),
     {| source := Some catalogue;
        destination := Some [ ["Title"; "Variant Fulfillment Service"; "Price"];
                              ["Widget"; "manual"; "10"];
                              ["Gadget"; "manual"] ]%string;
        stdout := report 1 |}).
Proof. reflexivity. Qed.

(** ** The claims *)

Section Claims.

Implicit Types (w : world) (text : string) (header r : row) (data : list row)
  (fin : Csv.Ending) (col i j : nat).

(** C1. In every data row that has more fields than the ordinal of the
    "Variant Fulfillment Service" column in the header, the output row at the
    same position holds "manual" at that ordinal, whatever the field was. *)
Theorem C1_target_field_is_manual w text header data fin col i r :
  source w = Some text →
  records text = {| Csv.rows := header :: data; Csv.ending := fin |} →
  list_index header "Variant Fulfillment Service" = Some col →
  data !! i = Some r →
  col < length r →
  ∃ out r', destination (fix_csv w).2 = Some out ∧
            out !! S i = Some r' ∧
            r' !! col = Some "manual"%string.
Proof.
  intros Hsrc Hrec Hidx Hr Hlen.
  rewrite (fix_csv_column _ _ _ _ _ _ Hsrc Hrec Hidx). simpl.
  exists (header :: (fix_row col <$> data)), (fix_row col r).
  split; [done|]. split.
  - simpl. by rewrite list_lookup_fmap, Hr.
  - by apply fix_row_target.
Qed.

Lemma C1_target_field_is_manual_witness :
  ∃ out r', destination (fix_csv (initial catalogue)).2 = Some out ∧
            out !! 1 = Some r' ∧
            r' !! 1 = Some "manual"%string.
Proof.
  apply (C1_target_field_is_manual (initial catalogue) catalogue
           ["Title"; "Variant Fulfillment Service"; "Price"]%string
           [["Widget"; "third-party"; "10"]; ["Gadget"; "9"]]%string
           Csv.Exhausted 1 0 ["Widget"; "third-party"; "10"]%string);
    [reflexivity | reflexivity | reflexivity | reflexivity | simpl; lia].
Defined.

(** C2. When the header does not contain "Variant Fulfillment Service" the
    lookup raises (ValueError), whatever follows the header in the input; the
    destination then holds the header and no data row. *)
Theorem C2_missing_column_fails_before_rows w text header data fin :
  source w = Some text →
  records text = {| Csv.rows := header :: data; Csv.ending := fin |} →
  "Variant Fulfillment Service"%string ∉ header →
  (fix_csv w).1 = inl ValueError ∧
  destination (fix_csv w).2 = Some [header] ∧
  stdout (fix_csv w).2 = stdout w.
Proof.
  intros Hsrc Hrec Hnot%list_index_None.
  by rewrite (fix_csv_no_column _ _ _ _ _ Hsrc Hrec Hnot).
Qed.

Lemma C2_missing_column_fails_before_rows_witness :
  (fix_csv (initial no_column)).1 = inl ValueError ∧
  destination (fix_csv (initial no_column)).2 = Some [["Title"; "Price"]%string] ∧
  stdout (fix_csv (initial no_column)).2 = [].
Proof.
  apply (C2_missing_column_fails_before_rows (initial no_column) no_column
           ["Title"; "Price"]%string [["Widget"; "10"]%string] Csv.Exhausted);
    [reflexivity | reflexivity |].
  apply list_index_None. reflexivity.
Defined.

(** C4. A data row with no more fields than the target ordinal reaches the
    destination as it was read: same fields, same number of them. *)
Theorem C4_short_row_unchanged w text header data fin col i r :
  source w = Some text →
  records text = {| Csv.rows := header :: data; Csv.ending := fin |} →
  list_index header "Variant Fulfillment Service" = Some col →
  data !! i = Some r →
  length r ≤ col →
  ∃ out, destination (fix_csv w).2 = Some out ∧ out !! S i = Some r.
Proof.
  intros Hsrc Hrec Hidx Hr Hlen.
  rewrite (fix_csv_column _ _ _ _ _ _ Hsrc Hrec Hidx). simpl.
  eexists. split; [done|]. simpl.
  rewrite list_lookup_fmap, Hr. simpl. by rewrite fix_row_short.
Qed.

Lemma C4_short_row_unchanged_witness :
  ∃ out, destination (fix_csv (initial short_rows)).2 = Some out ∧
         out !! 2 = Some ["Gadget"; "9"]%string.
Proof.
  apply (C4_short_row_unchanged (initial short_rows) short_rows
           ["Title"; "Price"; "Variant Fulfillment Service"]%string
           [["Widget"; "10"; "third-party"]; ["Gadget"; "9"]]%string
           Csv.Exhausted 2 1 ["Gadget"; "9"]%string);
    [reflexivity | reflexivity | reflexivity | reflexivity | simpl; lia].
Defined.

(** C4, as stated, fails on the bytes of the file: the row is written from
    its fields, not copied.  The short row whose text in the input is the
    quoted [Gadget], a comma, [9] and CR LF has the fields "Gadget" and "9";
    the text written for it is [Gadget,9] and CR LF, without the quotes. *)
Lemma C4_not_byte_identical :
  ¬ short_rows_byte_identical quoted_head [quoted_gadget].
Proof.
  intros Hsame.
  destruct (Hsame ["Title"; "Price"; "Variant Fulfillment Service"]%string 2 0
              quoted_gadget ["Gadget"; "9"]%string
              [ ["Title"; "Price"; "Variant Fulfillment Service"];
                ["Gadget"; "9"] ]%string)
    as (r' & Hr' & Htext);
    [reflexivity | reflexivity | reflexivity | reflexivity | simpl; lia | reflexivity |].
  simpl in Hr'. injection Hr' as <-.
  vm_compute in Htext. discriminate Htext.
Qed.

(** C5. When the reader gets through the whole input and the header contains
    the target column, the run succeeds, the destination has as many rows as
    the input (header included), and its rows are the input's rows in the
    input's order: the header, then each data row after the loop body. *)
Theorem C5_row_count_and_order w text header data :
  source w = Some text →
  records text = {| Csv.rows := header :: data; Csv.ending := Csv.Exhausted |} →
  "Variant Fulfillment Service"%string ∈ header →
  ∃ col out,
    list_index header "Variant Fulfillment Service" = Some col ∧
    (fix_csv w).1 = inr () ∧
    destination (fix_csv w).2 = Some out ∧
    length out = length (header :: data) ∧
    out = header :: (fix_row col <$> data) ∧
    ∀ i r, data !! i = Some r → out !! S i = Some (fix_row col r).
Proof.
  intros Hsrc Hrec Hin.
  destruct (list_index header "Variant Fulfillment Service") as [col|] eqn:Hidx;
    [|by apply list_index_None in Hidx].
  exists col, (header :: (fix_row col <$> data)).
  rewrite (fix_csv_column _ _ _ _ _ _ Hsrc Hrec Hidx). simpl.
  repeat split; try done.
  - by rewrite length_fmap.
  - intros i r Hr. by rewrite list_lookup_fmap, Hr.
Qed.

Lemma C5_row_count_and_order_witness :
  ∃ col out,
    list_index ["Title"; "Variant Fulfillment Service"; "Price"]%string
      "Variant Fulfillment Service" = Some col ∧
    (fix_csv (initial catalogue)).1 = inr () ∧
    destination (fix_csv (initial catalogue)).2 = Some out ∧
    length out = 3 ∧
    out = ["Title"; "Variant Fulfillment Service"; "Price"]%string ::
          (fix_row col <$> [["Widget"; "third-party"; "10"]; ["Gadget"; "9"]]%string) ∧
    ∀ i r, [["Widget"; "third-party"; "10"]; ["Gadget"; "9"]]%string !! i = Some r →
           out !! S i = Some (fix_row col r).
Proof.
  apply (C5_row_count_and_order (initial catalogue) catalogue
           ["Title"; "Variant Fulfillment Service"; "Price"]%string
           [["Widget"; "third-party"; "10"]; ["Gadget"; "9"]]%string);
    [reflexivity | reflexivity |].
  apply list_elem_of_In. simpl. right. left. reflexivity.
Defined.





(** C10. When the header names "Variant Fulfillment Service" at ordinal [i]
    and at no earlier ordinal, and again at a later ordinal [j], the column
    replaced is [i]: every data row that reaches ordinal [i] gets "manual"
    there, its field at [j] is the input's, and after a complete pass the
    console reports [i]. *)
Theorem C10_first_occurrence w text header data fin i j :
  source w = Some text →
  records text = {| Csv.rows := header :: data; Csv.ending := fin |} →
  header !! i = Some "Variant Fulfillment Service"%string →
  (∀ k, k < i → header !! k ≠ Some "Variant Fulfillment Service"%string) →
  header !! j = Some "Variant Fulfillment Service"%string →
  i < j →
  ∃ out,
    destination (fix_csv w).2 = Some out ∧
    (∀ k r, data !! k = Some r →
       ∃ r', out !! S k = Some r' ∧
             (i < length r → r' !! i = Some "manual"%string) ∧
             r' !! j = r !! j) ∧
    (fin = Csv.Exhausted → stdout (fix_csv w).2 = stdout w ++ report i).
Proof.
  intros Hsrc Hrec Hi Hfirst Hj Hij.
  pose proof (list_index_Some_of_first _ _ _ Hi Hfirst) as Hidx.
  rewrite (fix_csv_column _ _ _ _ _ _ Hsrc Hrec Hidx). simpl.
  eexists. split; [done|]. split.
  - intros k r Hr. exists (fix_row i r). simpl.
    rewrite list_lookup_fmap, Hr. split; [done|]. split.
    + apply fix_row_target.
    + apply fix_row_other. lia.
  - by intros ->.
Qed.

Lemma C10_first_occurrence_witness :
  ∃ out,
    destination (fix_csv (initial twice)).2 = Some out ∧
    (∀ k r, [["third-party"; "Widget"; "drop-ship"]%string] !! k = Some r →
       ∃ r', out !! S k = Some r' ∧
             (0 < length r → r' !! 0 = Some "manual"%string) ∧
             r' !! 2 = r !! 2) ∧
    (Csv.Exhausted = Csv.Exhausted →
     stdout (fix_csv (initial twice)).2 = stdout (initial twice) ++ report 0).
Proof.
  apply (C10_first_occurrence (initial twice) twice
           ["Variant Fulfillment Service"; "Title"; "Variant Fulfillment Service"]%string
           [["third-party"; "Widget"; "drop-ship"]%string]
           Csv.Exhausted 0 2);
    [reflexivity | reflexivity | reflexivity | intros k Hk; lia | reflexivity | lia].
Defined.

(** C3, as stated, fails: on a header without the target column the run
    raises after the header has been written, so the destination is neither
    complete nor free of rows. *)
Lemma C3_not_all_or_nothing : ¬ all_or_nothing (initial no_column).
Proof.
  unfold all_or_nothing.
  change (fix_csv (initial no_column))
    with (@inl exn () ValueError,
          {| source := Some no_column;
             destination := Some [["Title"; "Price"]%string];
             stdout := [] |}).
  simpl. intros [H | [H | H]]; discriminate H.
Qed.

(** C3, amended.  What a run leaves in the destination, by the way it ends:
    untouched when the input file cannot be opened; truncated and empty when
    the input has no first row; the header alone when the header lacks the
    target column; otherwise the header and the image of every row the reader
    yielded, which is the whole output when the reader finished and the rows
    up to the failure when it raised. *)
Theorem C3_destination_after_run w :
  match source w with
  | None =>
      (fix_csv w).1 = inl FileNotFoundError ∧
      destination (fix_csv w).2 = destination w
  | Some text =>
      match Csv.rows (records text) with
      | [] =>
          (fix_csv w).1 = inl (match Csv.ending (records text) with
                               | Csv.Exhausted => StopIteration
                               | Csv.Raises e => csv_Error e
                               end) ∧
          destination (fix_csv w).2 = Some []
      | header :: data =>
          match list_index header "Variant Fulfillment Service" with
          | None =>
              (fix_csv w).1 = inl ValueError ∧
              destination (fix_csv w).2 = Some [header]
          | Some col =>
              (fix_csv w).1 = loop_result (Csv.ending (records text)) ∧
              destination (fix_csv w).2 = Some (header :: (fix_row col <$> data))
          end
      end
  end.
Proof.
  destruct (source w) as [text|] eqn:Hsrc.
  - destruct (records text) as [[|header data] fin] eqn:Hrec; simpl.
    + by rewrite (fix_csv_no_header _ _ _ Hsrc Hrec).
    + destruct (list_index header "Variant Fulfillment Service") as [col|] eqn:Hidx.
      * by rewrite (fix_csv_column _ _ _ _ _ _ Hsrc Hrec Hidx).
      * by rewrite (fix_csv_no_column _ _ _ _ _ Hsrc Hrec Hidx).
  - by rewrite (fix_csv_no_file _ Hsrc).
Qed.

(** C8. Running the script on the file it produced leaves the same file:
    when a run on [text] succeeds and writes the rows [out], a run on the
    text of that output file, [Csv.writerows out], succeeds too, writes the
    rows [out] again and prints the same report. *)
Theorem C8_idempotent text w1 :
  fix_csv (initial text) = (inr (), w1) →
  ∃ out,
    destination w1 = Some out ∧
    fix_csv (initial (Csv.writerows out)) =
      (inr (),
       {| source := Some (Csv.writerows out);
          destination := Some out;
          stdout := stdout w1 |}).
Proof.
  intros Hrun.
  pose proof (FeedFacts.records_rows_ok text) as Hok.
  destruct (records text) as [[|header data] fin] eqn:Hrec.
  { by rewrite (fix_csv_no_header (initial text) text fin) in Hrun. }
  destruct (list_index header "Variant Fulfillment Service") as [col|] eqn:Hidx;
    [|by rewrite (fix_csv_no_column (initial text) text header data fin) in Hrun].
  rewrite (fix_csv_column (initial text) text header data fin col) in Hrun by done.
  destruct fin as [|e]; [|done]. injection Hrun as <-. simpl.
  exists (header :: (fix_row col <$> data)). split; [done|].
  simpl in Hok. apply Forall_cons in Hok as [Hheader Hdata].
  assert (Forall (Forall Feed.field_ok) (header :: (fix_row col <$> data))) as Hout.
  { constructor; [done|]. apply Forall_fmap. eapply Forall_impl; [done|].
    intros r Hr. simpl. unfold fix_row. case_decide; [|done].
    apply Forall_insert; [done|]. split; [done|].
    unfold Feed.within_limit, Csv.field_limit. simpl. lia. }
  rewrite (fix_csv_column (initial (Csv.writerows (header :: (fix_row col <$> data))))
             (Csv.writerows (header :: (fix_row col <$> data)))
             header (fix_row col <$> data) Csv.Exhausted col);
    [|done|by apply FeedFacts.records_writerows|done].
  simpl. rewrite <- list_fmap_compose.
  rewrite (list_fmap_ext (fix_row col ∘ fix_row col) (fix_row col) data); [done|].
  intros i r _. apply fix_row_idemp.
Qed.

Lemma C8_idempotent_witness :
  ∃ out,
    Some [ ["Title"; "Variant Fulfillment Service"; "Price"];
           ["Widget"; "manual"; "10"];
           ["Gadget"; "manual"] ]%string = Some out ∧
    fix_csv (initial (Csv.writerows out)) =
      (inr (),
       {| source := Some (Csv.writerows out);
          destination := Some out;
          stdout := report 1 |}).
Proof.
  apply (C8_idempotent catalogue
           {| source := Some catalogue;
              destination := Some [ ["Title"; "Variant Fulfillment Service"; "Price"];
                                    ["Widget"; "manual"; "10"];
                                    ["Gadget"; "manual"] ]%string;
              stdout := report 1 |}).
  reflexivity.
Defined.

(** C9, as stated, fails: a quoted field that is never closed does not stop
    the run.  The reader takes the field to run to the end of the input and
    the script succeeds. *)
Lemma C9_open_quote_is_not_fatal : ¬ malformed_is_fatal open_quote.
Proof.
  unfold malformed_is_fatal. intros Hfatal.
  destruct Hfatal as [e He]; [reflexivity|].
  change (fix_csv (initial open_quote)).1 with (@inr exn () ()) in He.
  discriminate He.
Qed.

(** C9, amended.  An error raised by the reader ends the run with an error:
    with that very error, or with the ValueError of a header that lacks the
    target column when the reader would only have raised after the header.
    Quoting is never the cause by itself: the reader, in its default dialect,
    accepts any quoting, and on an input of at most [Csv.field_limit]
    characters it raises nothing, so the run does not end in a parser
    error. *)
Theorem C9_parser_errors_propagate w text :
  source w = Some text →
  (∀ e, Csv.ending (records text) = Csv.Raises e →
        (fix_csv w).1 = inl (csv_Error e) ∨ (fix_csv w).1 = inl ValueError) ∧
  ((N.of_nat (String.length text) ≤ Csv.field_limit)%N →
   Csv.ending (records text) = Csv.Exhausted ∧
   ∀ e, (fix_csv w).1 ≠ inl (csv_Error e)).
Proof.
  intros Hsrc.
  assert (∀ e, (fix_csv w).1 = inl (csv_Error e) →
               Csv.ending (records text) = Csv.Raises e) as Hback.
  { intros e. destruct (records text) as [[|header data] fin] eqn:Hrec.
    - rewrite (fix_csv_no_header _ _ _ Hsrc Hrec). simpl.
      destruct fin; [done|]. by intros [= ->].
    - destruct (list_index header "Variant Fulfillment Service") as [col|] eqn:Hidx.
      + rewrite (fix_csv_column _ _ _ _ _ _ Hsrc Hrec Hidx). simpl.
        destruct fin; [done|]. by intros [= ->].
      + by rewrite (fix_csv_no_column _ _ _ _ _ Hsrc Hrec Hidx). }
  split.
  - intros e He. destruct (records text) as [[|header data] fin] eqn:Hrec;
      simpl in He; subst fin.
    + left. by rewrite (fix_csv_no_header _ _ _ Hsrc Hrec).
    + destruct (list_index header "Variant Fulfillment Service") as [col|] eqn:Hidx.
      * left. by rewrite (fix_csv_column _ _ _ _ _ _ Hsrc Hrec Hidx).
      * right. by rewrite (fix_csv_no_column _ _ _ _ _ Hsrc Hrec Hidx).
  - intros Hlen. pose proof (FeedFacts.records_no_error text Hlen) as Hend.
    split; [done|]. intros e He%Hback. by rewrite Hend in He.
Qed.

Lemma C9_parser_errors_propagate_witness :
  (∀ e, Csv.ending (records open_quote) = Csv.Raises e →
        (fix_csv (initial open_quote)).1 = inl (csv_Error e) ∨
        (fix_csv (initial open_quote)).1 = inl ValueError) ∧
  ((N.of_nat (String.length open_quote) ≤ Csv.field_limit)%N →
   Csv.ending (records open_quote) = Csv.Exhausted ∧
   ∀ e, (fix_csv (initial open_quote)).1 ≠ inl (csv_Error e)).
Proof.
  apply (C9_parser_errors_propagate (initial open_quote) open_quote).
  reflexivity.
Defined.

End Claims.

(** * Further properties *)

(** ** More on the reader and on text files *)

Module ReaderFacts.

Import Csv TextFile Feed FeedFacts.

Implicit Types (s t cur line : string) (c : ascii) (self : ReaderObj).

(** ** The first record *)

(** A stream that has something to read yields a record or raises. *)
Lemma feed_something st pending s :
  pending = true ∨ s ≠ ""%string ∨ (∃ self, st = inr self ∧ state self = IN_QUOTED_FIELD) →
  rows (feed st pending s) ≠ [] ∨ ∃ e, ending (feed st pending s) = Raises e.
Proof.
  assert (∀ st' k,
    (∀ self, state self = IN_QUOTED_FIELD →
             rows (k self) ≠ [] ∨ ∃ e, ending (k self) = Raises e) →
    rows (end_of_line st' k) ≠ [] ∨ ∃ e, ending (end_of_line st' k) = Raises e) as Hline.
  { intros st' k Hk. unfold end_of_line. destruct st' as [e|self1]; [right; by eexists|].
    destruct (EOL_step self1) as (self2 & -> & _ & Hst).
    case_bool_decide as Hrec; [by left|].
    apply Hk. by destruct Hst. }
  assert (∀ self, state self = IN_QUOTED_FIELD → rows (iternext self []) ≠ []) as Hend.
  { intros self Hst. simpl. rewrite Hst.
    rewrite (bool_decide_true (IN_QUOTED_FIELD = _)) by done.
    by rewrite orb_true_r. }
  revert st pending. induction s as [|c s IH]; intros st pending Hsome.
  - cbn [feed]. destruct pending.
    + apply Hline. intros self Hst. left. by apply Hend.
    + destruct Hsome as [? | [? | (self & -> & Hst)]]; [done..|]. left. by apply Hend.
  - cbn [feed]. case_bool_decide.
    + apply Hline. intros self Hst. apply IH. right. right. by exists self.
    + apply IH. by left.
Qed.

Lemma universal_newlines_nil s : universal_newlines s = ""%string → s = ""%string.
Proof.
  destruct s as [|c s]; [done|]. simpl.
  case_bool_decide; [|done]. destruct s; [done|]. by case_bool_decide.
Qed.

(** Only the empty file has no record at all. *)
Lemma records_nil text :
  records text = {| rows := []; ending := Exhausted |} ↔ text = ""%string.
Proof.
  split; [|by intros ->].
  intros Hrec. apply universal_newlines_nil.
  destruct (decide (universal_newlines text = ""%string)) as [|Hne]; [done|].
  unfold records in Hrec. rewrite feed_lines in Hrec.
  destruct (feed_something (inr parse_reset) false (universal_newlines text))
    as [Hrows | [e He]]; [by right; left | |]; by rewrite Hrec in *.
Qed.

(** ** The errors of the reader on a text file *)

Lemma parse_add_char_error self c e :
  parse_add_char self c = inl e → e = FieldLargerThanLimit.
Proof. unfold parse_add_char. destruct (_ <=? _)%N; [by intros [= <-] | done]. Qed.

Lemma char_step_error self c :
  state self ≠ EAT_CRNL → is_newline c = false →
  match parse_process_char self (Some c) with
  | inl e => e = FieldLargerThanLimit
  | inr self' => state self' ≠ EAT_CRNL
  end.
Proof.
  intros Hst Hnl. unfold parse_process_char, start_field, add_char_then.
  rewrite Hnl.
  destruct (state self) eqn:Hs; try done; simpl; repeat case_bool_decide;
    try (by simpl; rewrite ?Hs).
  all: match goal with
       | |- context [parse_add_char ?x ?a] =>
           destruct (parse_add_char x a) as [e|self'] eqn:Hadd
       end;
       [by eapply parse_add_char_error|];
       apply parse_add_char_inr in Hadd as [_ ->]; simpl; by rewrite ?Hs.
Qed.

Lemma LF_step_error self e :
  state self ≠ EAT_CRNL →
  parse_process_char self (Some LF) = inl e → e = FieldLargerThanLimit.
Proof.
  intros Hst. unfold parse_process_char, start_field, add_char_then.
  destruct (state self) eqn:Hs; try done; simpl.
  apply parse_add_char_error.
Qed.

(** On CR-free text the reader never complains about a line end inside an
    unquoted field. *)
Lemma feed_no_newline_error s self pending :
  all_chars not_CR s = true →
  state self ≠ EAT_CRNL →
  ending (feed (inr self) pending s) ≠ Raises NewlineInUnquotedField.
Proof.
  revert self pending. induction s as [|c s IH]; intros self pending Hs Hst.
  - cbn [feed]. destruct pending; [|by rewrite iternext_nil_ending].
    unfold end_of_line. destruct (EOL_step self) as (self2 & -> & _ & _).
    case_bool_decide; [done | by rewrite iternext_nil_ending].
  - simpl in Hs. apply andb_prop in Hs as [Hc Hs]. cbn [feed].
    case_bool_decide as HLF.
    + subst c. destruct (parse_process_char self (Some LF)) as [e|self1] eqn:Hstep.
      * apply LF_step_error in Hstep as ->; done.
      * unfold end_of_line. destruct (EOL_step self1) as (self2 & -> & _ & Hst2).
        case_bool_decide as Hrec; simpl.
        -- by apply IH.
        -- apply IH; [done|]. destruct Hst2 as [-> | ->]; done.
    + pose proof (char_step_error self c Hst) as Hstep.
      destruct (parse_process_char self (Some c)) as [e|self1].
      * rewrite feed_raised, Hstep; [done|].
        apply not_CR_LF; [done | by apply bool_decide_eq_false].
      * apply IH; [done|]. apply Hstep.
        apply not_CR_LF; [done | by apply bool_decide_eq_false].
Qed.

Lemma records_no_newline_error text :
  ending (records text) ≠ Raises NewlineInUnquotedField.
Proof.
  unfold records. rewrite feed_lines.
  apply feed_no_newline_error; [apply universal_newlines_no_CR | done].
Qed.


(** ** The lines of a text *)

Lemma readlines_concat s cur :
  foldr String.append ""%string (readlines cur s) = cur +:+ s.
Proof.
  revert cur. induction s as [|c s IH]; intros cur; simpl.
  - case_bool_decide as Hcur; simpl; [by subst | by rewrite sapp_nil_r].
  - case_bool_decide; simpl; rewrite IH; by rewrite ?sapp_assoc.
Qed.

Lemma readlines_shape s cur :
  all_chars not_LF cur = true →
  ∃ bodies last,
    readlines cur s =
      ((λ b, b +:+ String LF "") <$> bodies) ++
      (if decide (last = ""%string) then [] else [last]) ∧
    Forall (λ b, all_chars not_LF b = true) (last :: bodies).
Proof.
  revert cur. induction s as [|c s IH]; intros cur Hcur; simpl.
  - exists [], cur. split; [|by repeat constructor].
    simpl. case_bool_decide; by case_decide.
  - case_bool_decide as Hc.
    + destruct (IH ""%string) as (bodies & last & -> & [Hlast Hbodies]%Forall_cons); [done|].
      exists (cur :: bodies), last. subst c. split; [done|]. by repeat constructor.
    + apply IH. rewrite all_chars_app, Hcur. simpl.
      unfold not_LF. by rewrite bool_decide_false.
Qed.

Lemma universal_newlines_idemp s :
  universal_newlines (universal_newlines s) = universal_newlines s.
Proof. apply universal_newlines_id, universal_newlines_no_CR. Qed.

End ReaderFacts.

(** ** More on a run *)

Section RunFacts.

Implicit Types (w : world) (text : string) (header r : row) (data : list row)
  (fin : Csv.Ending) (col i j : nat).

(** A run that ends in a parser error ends in the error the reader raised. *)
Lemma fix_csv_csv_error_inv w text e :
  source w = Some text →
  (fix_csv w).1 = inl (csv_Error e) →
  Csv.ending (records text) = Csv.Raises e.
Proof.
  intros Hsrc. destruct (records text) as [[|header data] fin] eqn:Hrec.
  - rewrite (fix_csv_no_header _ _ _ Hsrc Hrec). simpl.
    destruct fin; [done|]. by intros [= ->].
  - destruct (list_index header "Variant Fulfillment Service") as [col|] eqn:Hidx.
    + rewrite (fix_csv_column _ _ _ _ _ _ Hsrc Hrec Hidx). simpl.
      destruct fin; [done|]. by intros [= ->].
    + by rewrite (fix_csv_no_column _ _ _ _ _ Hsrc Hrec Hidx).
Qed.

(** A run that succeeds has read a header with the target column and got
    through the whole input. *)
Lemma fix_csv_success_inv w :
  (fix_csv w).1 = inr () →
  ∃ text header data col,
    source w = Some text ∧
    records text = {| Csv.rows := header :: data; Csv.ending := Csv.Exhausted |} ∧
    list_index header "Variant Fulfillment Service" = Some col.
Proof.
  destruct (source w) as [text|] eqn:Hsrc;
    [|by rewrite (fix_csv_no_file _ Hsrc)].
  destruct (records text) as [[|header data] fin] eqn:Hrec.
  { by rewrite (fix_csv_no_header _ _ _ Hsrc Hrec). }
  destruct (list_index header "Variant Fulfillment Service") as [col|] eqn:Hidx;
    [|by rewrite (fix_csv_no_column _ _ _ _ _ Hsrc Hrec Hidx)].
  rewrite (fix_csv_column _ _ _ _ _ _ Hsrc Hrec Hidx). simpl.
  destruct fin; [|done]. intros _. by exists text, header, data, col.
Qed.

Lemma field_ok_manual : Feed.field_ok "manual".
Proof. split; [done|]. unfold Feed.within_limit, Csv.field_limit. simpl. lia. Qed.

Lemma fix_row_ok col r : Forall Feed.field_ok r → Forall Feed.field_ok (fix_row col r).
Proof.
  intros Hr. unfold fix_row. case_decide; [|done].
  apply Forall_insert; [done | apply field_ok_manual].
Qed.

(** Whatever a run on an existing input file leaves in the destination, its
    fields are free of CR and within the field limit. *)
Lemma destination_ok w text :
  source w = Some text →
  ∃ out, destination (fix_csv w).2 = Some out ∧ Forall (Forall Feed.field_ok) out.
Proof.
  intros Hsrc. pose proof (FeedFacts.records_rows_ok text) as Hok.
  destruct (records text) as [[|header data] fin] eqn:Hrec.
  { rewrite (fix_csv_no_header _ _ _ Hsrc Hrec). simpl. by eexists. }
  simpl in Hok. apply Forall_cons in Hok as [Hheader Hdata].
  destruct (list_index header "Variant Fulfillment Service") as [col|] eqn:Hidx.
  - rewrite (fix_csv_column _ _ _ _ _ _ Hsrc Hrec Hidx). simpl.
    eexists. split; [done|]. constructor; [done|].
    apply Forall_fmap. eapply Forall_impl; [done|]. intros r Hr. by apply fix_row_ok.
  - rewrite (fix_csv_no_column _ _ _ _ _ Hsrc Hrec Hidx). simpl.
    eexists. split; [done|]. by repeat constructor.
Qed.


(** A text that starts with a line end has an empty first record. *)
Lemma records_blank_first c text :
  Csv.is_newline c = true →
  ∃ rest, records (String c text) = Csv.yield [] rest.
Proof.
  intros Hc. unfold records. rewrite FeedFacts.feed_lines.
  assert (∃ t, TextFile.universal_newlines (String c text) = String Csv.LF t) as [t ->].
  { unfold Csv.is_newline in Hc. apply orb_prop in Hc as [Hc | Hc];
      apply bool_decide_eq_true in Hc; subst c.
    - by eexists.
    - simpl. destruct text as [|c' text]; [by eexists|].
      case_bool_decide; by eexists. }
  by eexists.
Qed.

End RunFacts.

(** ** The properties *)

Section Extras.

Implicit Types (w : world) (text : string) (header r : row) (data : list row)
  (fin : Csv.Ending) (col i j : nat).

(** X1. The run ends in StopIteration exactly when the input file is empty:
    any other content, were it a single line end, gives [next(reader)] a
    first record (or a parser error).  On the empty file the destination is
    left truncated and empty. *)
Theorem X1_stop_iteration_iff_empty w text :
  source w = Some text →
  ((fix_csv w).1 = inl StopIteration ↔ text = ""%string) ∧
  (text = ""%string →
   destination (fix_csv w).2 = Some [] ∧ stdout (fix_csv w).2 = stdout w).
Proof.
  intros Hsrc. split; [split|].
  - destruct (records text) as [[|header data] fin] eqn:Hrec.
    + rewrite (fix_csv_no_header _ _ _ Hsrc Hrec). simpl.
      destruct fin; [|done]. intros _. by apply ReaderFacts.records_nil.
    + destruct (list_index header "Variant Fulfillment Service") as [col|] eqn:Hidx.
      * rewrite (fix_csv_column _ _ _ _ _ _ Hsrc Hrec Hidx). simpl. by destruct fin.
      * by rewrite (fix_csv_no_column _ _ _ _ _ Hsrc Hrec Hidx).
  - intros ->. by rewrite (fix_csv_no_header _ ""%string Csv.Exhausted Hsrc eq_refl).
  - intros ->. by rewrite (fix_csv_no_header _ ""%string Csv.Exhausted Hsrc eq_refl).
Qed.

Lemma X1_stop_iteration_iff_empty_witness :
  ((fix_csv (initial "")).1 = inl StopIteration ↔ ""%string = ""%string) ∧
  (""%string = ""%string →
   destination (fix_csv (initial "")).2 = Some [] ∧
   stdout (fix_csv (initial "")).2 = stdout (initial "")).
Proof.
  apply (X1_stop_iteration_iff_empty (initial "") ""). reflexivity.
Defined.

(** X2. A run succeeds only if the input file exists, the reader gets
    through all of it without raising, and its first record contains
    "Variant Fulfillment Service": in every other case the run ends in an
    exception. *)
Theorem X2_success_only_if w :
  (fix_csv w).1 = inr () →
  ∃ text header data,
    source w = Some text ∧
    records text = {| Csv.rows := header :: data; Csv.ending := Csv.Exhausted |} ∧
    "Variant Fulfillment Service"%string ∈ header.
Proof.
  intros (text & header & data & col & Hsrc & Hrec & Hidx)%fix_csv_success_inv.
  exists text, header, data. repeat split; try done.
  eapply list_elem_of_lookup_2. by apply list_index_lookup.
Qed.

Lemma X2_success_only_if_witness :
  ∃ text header data,
    source (initial catalogue) = Some text ∧
    records text = {| Csv.rows := header :: data; Csv.ending := Csv.Exhausted |} ∧
    "Variant Fulfillment Service"%string ∈ header.
Proof. apply (X2_success_only_if (initial catalogue)). reflexivity. Defined.

(** X3. The two report lines are printed after a successful pass and name the
    ordinal found in the header; a run that fails, at whatever point, prints
    nothing. *)
Theorem X3_console w :
  (∀ e, (fix_csv w).1 = inl e → stdout (fix_csv w).2 = stdout w) ∧
  ((fix_csv w).1 = inr () →
   ∃ text header data col,
     source w = Some text ∧
     Csv.rows (records text) = header :: data ∧
     list_index header "Variant Fulfillment Service" = Some col ∧
     stdout (fix_csv w).2 =
       stdout w ++
       [ "✅ Fixed CSV saved to product_template_final.csv";
         "   Changed column " +:+ pretty col +:+
         " (Variant Fulfillment Service) to 'manual'" ]%string).
Proof.
  split.
  - intros e. destruct (source w) as [text|] eqn:Hsrc;
      [|by rewrite (fix_csv_no_file _ Hsrc)].
    destruct (records text) as [[|header data] fin] eqn:Hrec.
    { by rewrite (fix_csv_no_header _ _ _ Hsrc Hrec). }
    destruct (list_index header "Variant Fulfillment Service") as [col|] eqn:Hidx;
      [|by rewrite (fix_csv_no_column _ _ _ _ _ Hsrc Hrec Hidx)].
    rewrite (fix_csv_column _ _ _ _ _ _ Hsrc Hrec Hidx). simpl. by destruct fin.
  - intros Hok.
    destruct (fix_csv_success_inv _ Hok) as (text & header & data & col & Hsrc & Hrec & Hidx).
    exists text, header, data, col. rewrite Hrec. repeat split; try done.
    by rewrite (fix_csv_column _ _ _ _ _ _ Hsrc Hrec Hidx).
Qed.

(** X4. The only parser error a run can end in is the field-limit error:
    the input is read with universal newlines, so the reader never meets a
    line end inside a line and never raises its new-line error. *)
Theorem X4_only_field_limit_error w e :
  (fix_csv w).1 = inl (csv_Error e) → e = Csv.FieldLargerThanLimit.
Proof.
  intros Hrun. destruct (source w) as [text|] eqn:Hsrc;
    [|by rewrite (fix_csv_no_file _ Hsrc) in Hrun].
  apply (fix_csv_csv_error_inv _ _ _ Hsrc) in Hrun.
  destruct e; [done|]. by apply ReaderFacts.records_no_newline_error in Hrun.
Qed.

Lemma X4_only_field_limit_error_witness :
  (fix_csv (initial (runaway (N.to_nat 131073)))).1 =
    inl (csv_Error Csv.FieldLargerThanLimit) ∧
  Csv.FieldLargerThanLimit = Csv.FieldLargerThanLimit.
Proof.
  assert ((fix_csv (initial (runaway (N.to_nat 131073)))).1 =
          inl (csv_Error Csv.FieldLargerThanLimit)) as Hrun
    by (by rewrite runaway_run).
  split; [exact Hrun|].
  exact (X4_only_field_limit_error _ _ Hrun).
Defined.

(** X5. What the writer writes, the reader reads back: for rows whose fields
    hold no CR and stay within the field limit, the text of one [writerow]
    per row, read as a file, gives those rows again and no error, whatever
    delimiters, quote characters and line ends the fields contain. *)
Theorem X5_write_then_read (rs : list row) :
  Forall (Forall Feed.field_ok) rs →
  records (Csv.writerows rs) = {| Csv.rows := rs; Csv.ending := Csv.Exhausted |}.
Proof. apply FeedFacts.records_writerows. Qed.

Lemma X5_write_then_read_witness :
  records (Csv.writerows
             [ ["a,b"; "say " +:+ String Csv.quotechar "hi"; "two" +:+ nl +:+ "lines"];
               []; [""] ]%string) =
    {| Csv.rows := [ ["a,b"; "say " +:+ String Csv.quotechar "hi"; "two" +:+ nl +:+ "lines"];
                     []; [""] ]%string;
       Csv.ending := Csv.Exhausted |}.
Proof.
  apply (X5_write_then_read
           [ ["a,b"; "say " +:+ String Csv.quotechar "hi"; "two" +:+ nl +:+ "lines"];
             []; [""] ]%string).
  repeat constructor; unfold Feed.within_limit, Csv.field_limit; simpl; lia.
Defined.

(** X6. The file a run leaves behind is well formed, however the run ended:
    read back by the same reader it gives exactly the rows that were written,
    without error. *)
Theorem X6_output_reads_back w text :
  source w = Some text →
  ∃ out,
    destination (fix_csv w).2 = Some out ∧
    records (Csv.writerows out) = {| Csv.rows := out; Csv.ending := Csv.Exhausted |}.
Proof.
  intros Hsrc. destruct (destination_ok w text Hsrc) as (out & Hout & Hok).
  exists out. split; [done|]. by apply FeedFacts.records_writerows.
Qed.

Lemma X6_output_reads_back_witness :
  ∃ out,
    destination (fix_csv (initial open_quote)).2 = Some out ∧
    records (Csv.writerows out) = {| Csv.rows := out; Csv.ending := Csv.Exhausted |}.
Proof. apply (X6_output_reads_back (initial open_quote) open_quote). reflexivity. Defined.

(** X7. No field that reaches the destination holds a CR, and none exceeds
    the field limit: the input is read with universal newlines, so a CR or a
    CR LF pair, even inside a quoted field, arrives as LF. *)
Theorem X7_no_CR_in_output w text out r f :
  source w = Some text →
  destination (fix_csv w).2 = Some out →
  r ∈ out → f ∈ r →
  Feed.all_chars Feed.not_CR f = true ∧
  (N.of_nat (String.length f) ≤ Csv.field_limit)%N.
Proof.
  intros Hsrc Hout Hr Hf.
  destruct (destination_ok w text Hsrc) as (out' & Hout' & Hok).
  rewrite Hout in Hout'. injection Hout' as <-.
  rewrite Forall_forall in Hok. specialize (Hok r Hr).
  rewrite Forall_forall in Hok. apply (Hok f Hf).
Qed.

Lemma X7_no_CR_in_output_witness :
  Feed.all_chars Feed.not_CR ("one" +:+ nl +:+ "two" +:+ nl +:+ "three") = true ∧
  (N.of_nat (String.length ("one" +:+ nl +:+ "two" +:+ nl +:+ "three"))
   ≤ Csv.field_limit)%N.
Proof.
  apply (X7_no_CR_in_output (initial carriage) carriage
           [ ["Title"; "Variant Fulfillment Service"];
             ["one" +:+ nl +:+ "two" +:+ nl +:+ "three"; "manual"] ]%string
           ["one" +:+ nl +:+ "two" +:+ nl +:+ "three"; "manual"]%string
           ("one" +:+ nl +:+ "two" +:+ nl +:+ "three"));
    [reflexivity | reflexivity | |].
  - apply list_elem_of_In. simpl. right. left. reflexivity.
  - apply list_elem_of_In. simpl. left. reflexivity.
Defined.

(** X8. After a successful run every data row of the destination has as many
    fields as the input row at its position, and if it reaches the target
    ordinal the field there is "manual": no other value of the column
    survives. *)
Theorem X8_column_holds_only_manual w :
  (fix_csv w).1 = inr () →
  ∃ text header data col out,
    source w = Some text ∧
    Csv.rows (records text) = header :: data ∧
    list_index header "Variant Fulfillment Service" = Some col ∧
    destination (fix_csv w).2 = Some (header :: out) ∧
    length out = length data ∧
    ∀ i r', out !! i = Some r' →
      (∃ r, data !! i = Some r ∧ length r' = length r) ∧
      ∀ v, r' !! col = Some v → v = "manual"%string.
Proof.
  intros (text & header & data & col & Hsrc & Hrec & Hidx)%fix_csv_success_inv.
  exists text, header, data, col, (fix_row col <$> data).
  rewrite (fix_csv_column _ _ _ _ _ _ Hsrc Hrec Hidx), Hrec. simpl.
  split; [done|]. split; [done|]. split; [done|]. split; [done|].
  split; [by rewrite length_fmap|].
  intros i r' Hr'. rewrite list_lookup_fmap in Hr'.
  destruct (data !! i) as [r|]; [|done]. injection Hr' as <-. split.
  - exists r. by rewrite fix_row_length.
  - intros v Hv.
    assert (col < length r) as Hlen.
    { apply lookup_lt_Some in Hv. by rewrite fix_row_length in Hv. }
    rewrite fix_row_target in Hv by done. by injection Hv.
Qed.

Lemma X8_column_holds_only_manual_witness :
  ∃ text header data col out,
    source (initial catalogue) = Some text ∧
    Csv.rows (records text) = header :: data ∧
    list_index header "Variant Fulfillment Service" = Some col ∧
    destination (fix_csv (initial catalogue)).2 = Some (header :: out) ∧
    length out = length data ∧
    ∀ i r', out !! i = Some r' →
      (∃ r, data !! i = Some r ∧ length r' = length r) ∧
      ∀ v, r' !! col = Some v → v = "manual"%string.
Proof. apply (X8_column_holds_only_manual (initial catalogue)). reflexivity. Defined.

(** X9. Iterating the input file loses no character and cuts only after a
    line end: the lines, put end to end, are the text after newline
    translation, every line but the last ends with its only LF, and the last
    line, if it has no LF, is not empty. *)
Theorem X9_lines text :
  foldr String.append ""%string (TextFile.lines text) =
    TextFile.universal_newlines text ∧
  ∃ bodies last,
    TextFile.lines text =
      ((λ b, b +:+ String Csv.LF "") <$> bodies) ++
      (if decide (last = ""%string) then [] else [last]) ∧
    Forall (λ b, Feed.all_chars Feed.not_LF b = true) (last :: bodies).
Proof.
  unfold TextFile.lines. split.
  - apply ReaderFacts.readlines_concat.
  - by apply ReaderFacts.readlines_shape.
Qed.

(** X10. Newline translation on reading: the text handed to the reader holds
    no CR and is never longer than the file's; text without CR is handed over
    as it is, so translating twice is translating once. *)
Theorem X10_universal_newlines text :
  Feed.all_chars Feed.not_CR (TextFile.universal_newlines text) = true ∧
  String.length (TextFile.universal_newlines text) ≤ String.length text ∧
  (Feed.all_chars Feed.not_CR text = true → TextFile.universal_newlines text = text) ∧
  TextFile.universal_newlines (TextFile.universal_newlines text) =
    TextFile.universal_newlines text.
Proof.
  repeat split.
  - apply FeedFacts.universal_newlines_no_CR.
  - apply FeedFacts.universal_newlines_length.
  - apply FeedFacts.universal_newlines_id.
  - apply ReaderFacts.universal_newlines_idemp.
Qed.



(** X12. A blank first line is an empty header: when the input starts with
    a line end the lookup raises ValueError, whatever follows, and the
    destination is left with one empty row. *)
Theorem X12_blank_first_line w c text :
  source w = Some (String c text) →
  Csv.is_newline c = true →
  (fix_csv w).1 = inl ValueError ∧
  destination (fix_csv w).2 = Some [[]] ∧
  stdout (fix_csv w).2 = stdout w.
Proof.
  intros Hsrc Hc. destruct (records_blank_first c text Hc) as [[data fin] Hrec].
  by rewrite (fix_csv_no_column _ _ [] data fin Hsrc Hrec eq_refl).
Qed.

Lemma X12_blank_first_line_witness :
  (fix_csv (initial (nl +:+ catalogue))).1 = inl ValueError ∧
  destination (fix_csv (initial (nl +:+ catalogue))).2 = Some [[]] ∧
  stdout (fix_csv (initial (nl +:+ catalogue))).2 = stdout (initial (nl +:+ catalogue)).
Proof.
  apply (X12_blank_first_line (initial (nl +:+ catalogue)) Csv.LF catalogue);
    reflexivity.
Defined.

End Extras.
